(** * Ginkgo outline: the outline builder and the tree data provider

    A shallow embedding of [outliner.ts] (the builder [fromJSON], the
    traversal [preOrder], the diagnostic test [isGinkgoImportsNotFoundError]),
    of [treeDataProvider.ts] (cache, change-triggering policy, click
    disambiguation) and of the head of [symbolPicker.ts].

    JavaScript objects live in a store ([heap]); a node is referred to by
    its address, so that reference equality of the source is equality of
    addresses here.  Exceptions are a constructor of [result].  The editor
    host (event emitters, [setTimeout], the output channel, notifications)
    is a [World] that records the observable effects in order. *)

From Stdlib Require Import ZArith String List Lia Bool DecimalString.
From stdpp Require Import base option list strings.
Import ListNotations.

Open Scope Z_scope.

(* ================================================================= *)
(** ** outliner.ts *)

Module Outliner.

(** Addresses of objects in the store. *)
Abbreviation loc := nat (only parsing).

(** [interface GinkgoNode].  [nodes] is [None] when the property is
    missing on the object ([undefined]); [parent] is [None] until the
    builder assigns it.  [end] is a keyword, hence [end_]. *)
Record GinkgoNode := mkGinkgoNode {
  name : string;
  text : string;
  start : Z;
  end_ : Z;
  spec : bool;
  focused : bool;
  pending : bool;
  nodes : option (list loc);
  parent : option loc
}.

(** The store of node objects; the address of an object is its index. *)
Abbreviation heap := (list GinkgoNode) (only parsing).

(** [interface Outline]: both views hold references to the same objects. *)
Record Outline := mkOutline {
  nested : list loc;
  flat : list loc
}.

(** A record of the parser's JSON output, fields
    [name,text,start,end,spec,focused,pending,nodes]; [jnodes] is [None]
    when the record carries no [nodes] member. *)
#[warnings="-register-all"]
Inductive JsonNode :=
| JNode (jname jtext : string) (jstart jend : Z)
        (jspec jfocused jpending : bool) (jnodes : option (list JsonNode)).

(** [Error] objects, reduced to their message. *)
Record Error := mkError { message : string }.

(** Outcome of a synchronous call: a value, a thrown error, or the
    traversal budget of the model exhausted. *)
Inductive result (A : Type) :=
| Ok (a : A)
| Throw (e : Error)
| OutOfFuel.
Arguments Ok {A} a.
Arguments Throw {A} e.
Arguments OutOfFuel {A}.

Definition bind {A B} (r : result A) (k : A -> result B) : result B :=
  match r with
  | Ok a => k a
  | Throw e => Throw e
  | OutOfFuel => OutOfFuel
  end.

Notation "'let*' x ':=' r 'in' k" := (bind r (fun x => k))
  (at level 10, x name, r at level 100, k at level 200).

(** [for (let x of xs) body(x)] over a state, stopping at the first throw. *)
Fixpoint for_of {A St} (body : A -> St -> result St) (xs : list A) (st : St)
  : result St :=
  match xs with
  | [] => Ok st
  | x :: xs' => let* st' := body x st in for_of body xs' st'
  end.

(** What the runtime raises when a property of [undefined] is read or
    [undefined] is iterated. *)
Definition TypeError (msg : string) : Error := mkError msg.

Definition not_iterable : Error := TypeError "n.nodes is not iterable".
Definition undefined_reference : Error :=
  TypeError "Cannot read properties of undefined".

Section AllocAll.
Variable alloc1 : JsonNode -> heap -> loc * heap.

(** The elements of a JSON array, left to right. *)
Fixpoint alloc_all (js : list JsonNode) (h : heap) : list loc * heap :=
  match js with
  | [] => ([], h)
  | j :: js' =>
      let '(l, h1) := alloc1 j h in
      let '(ls, h2) := alloc_all js' h1 in
      (l :: ls, h2)
  end.
End AllocAll.

(** [JSON.parse] on one record: every record becomes a fresh object, the
    children before the record that holds them, and [parent] is unset. *)
Fixpoint alloc (j : JsonNode) (h : heap) : loc * heap :=
  match j with
  | JNode n t s e sp f p cs =>
      let '(ls, h1) :=
        match cs with
        | None => (None, h)
        | Some js => let '(ls, h') := alloc_all alloc js h in (Some ls, h')
        end in
      (length h1, h1 ++ [mkGinkgoNode n t s e sp f p ls None])
  end.

(** [JSON.parse] on the array of roots. *)
Definition JSON_parse (js : list JsonNode) (h : heap) : list loc * heap :=
  alloc_all alloc js h.

Section PreOrder.
(** [St] is what the callback's closure captures besides the store. *)
Context {St : Type}.
Variable f : loc -> heap * St -> result (heap * St).

(** [preOrder(node, f)]: call [f], then, when [node.nodes] is truthy,
    recurse into each child in order.  [node.nodes] is read after [f]
    has run.  The recursion follows the store, so it carries a budget. *)
Fixpoint preOrder (fuel : nat) (node : loc) (st : heap * St)
  : result (heap * St) :=
  match fuel with
  | O => OutOfFuel
  | S fuel' =>
      let* st1 := f node st in
      match st1.1 !! node with
      | None => Throw undefined_reference
      | Some o =>
          match nodes o with
          | None => Ok st1
          | Some cs => for_of (preOrder fuel') cs st1
          end
      end
  end.
End PreOrder.

Definition set_parent (p : loc) (o : GinkgoNode) : GinkgoNode :=
  mkGinkgoNode (name o) (text o) (start o) (end_ o) (spec o) (focused o)
               (pending o) (nodes o) (Some p).

(** [for (let c of n.nodes) { c.parent = n; }] for an iterable [n.nodes]. *)
Definition annotate (n : loc) (cs : list loc) (h : heap) : heap :=
  fold_left (fun h' c => alter (set_parent n) c h') cs h.

(** The callback of [fromJSON]: push [n] on [flat], then annotate every
    child with its parent.  Iterating a missing [n.nodes] throws. *)
Definition visit (n : loc) (st : heap * list loc) : result (heap * list loc) :=
  let '(h, flat) := st in
  let flat' := flat ++ [n] in
  match h !! n with
  | None => Throw undefined_reference
  | Some o =>
      match nodes o with
      | None => Throw not_iterable
      | Some cs => Ok (annotate n cs h, flat')
      end
  end.

(** [fromJSON], on the parsed value of [input] and the store [h0] the call
    starts from.  The budget exceeds every depth the store can hold. *)
Definition fromJSON (input : list JsonNode) (h0 : heap)
  : result (Outline * heap) :=
  let '(nested, h) := JSON_parse input h0 in
  let* st := for_of (preOrder visit (S (length h))) nested (h, []) in
  Ok (mkOutline nested st.2, st.1).

(** The double quote character, as a string. *)
Definition dquote : string := String (Ascii.ascii_of_nat 34) EmptyString.

(** The diagnostic of the ginkgo CLI for a file without ginkgo imports. *)
Definition ginkgoImportsNotFoundError : string :=
  "error creating outline: file does not import " ++
  dquote ++ "github.com/onsi/ginkgo" ++ dquote ++ " or " ++
  dquote ++ "github.com/onsi/ginkgo/extensions/table" ++ dquote.

(** [s.indexOf(needle)]: the least index at which [needle] occurs, [-1]
    when there is none; [i] is the index of the head of [s]. *)
Fixpoint indexOf_from (needle s : string) (i : Z) : Z :=
  if String.prefix needle s then i
  else match s with
       | EmptyString => -1
       | String _ s' => indexOf_from needle s' (i + 1)
       end.

Definition indexOf (s needle : string) : Z := indexOf_from needle s 0.

(** Truthiness of a string: the empty string is falsy. *)
Definition truthy_string (s : string) : bool :=
  match s with EmptyString => false | _ => true end.

Definition isGinkgoImportsNotFoundError (err : Error) : bool :=
  if negb (truthy_string (message err)) then false
  else 0 <? indexOf (message err) ginkgoImportsNotFoundError.

End Outliner.

(* ================================================================= *)
(** ** The editor host *)

Module Host.
Import Outliner.

Record TextDocument := mkTextDocument {
  uri : string;
  languageId : string
}.

(** [viewColumn] is [None] for an editor that is not one of the main
    editors. *)
Record TextEditor := mkTextEditor {
  document : TextDocument;
  viewColumn : option nat
}.

(** [contentChanges] keeps the inserted texts, one per change. *)
Record TextDocumentChangeEvent := mkChangeEvent {
  ev_document : TextDocument;
  contentChanges : list string
}.

(** How a promise settles. *)
Inductive Settled (A : Type) :=
| Resolved (a : A)
| Rejected (e : Error).
Arguments Resolved {A} a.
Arguments Rejected {A} e.

(** Calls into the host that an observer can see, in program order. *)
Inductive Effect :=
| Fire
| AppendLine (line : string)
| ShowErrorMessage (msg : string) (items : list string)
| OutlineFromDoc (doc : TextDocument)
| HighlightNode (e : TextEditor) (n : GinkgoNode)
| SetSelectionToNodeStart (e : TextEditor) (n : GinkgoNode)
| HighlightOff (e : TextEditor)
| ExecuteCommand (cmd : string)
| ShowQuickPick (items : list loc)
| QuickPickShow (items : list loc).

Definition is_Fire (e : Effect) : bool :=
  match e with Fire => true | _ => false end.

Definition is_ShowErrorMessage (e : Effect) : bool :=
  match e with ShowErrorMessage _ _ => true | _ => false end.

Definition is_OutlineFromDoc (e : Effect) : bool :=
  match e with OutlineFromDoc _ => true | _ => false end.

(** Number of refresh notifications in a trace. *)
Definition fires (es : list Effect) : nat := length (List.filter is_Fire es).

(** Number of error notifications in a trace. *)
Definition errorMessages (es : list Effect) : nat :=
  length (List.filter is_ShowErrorMessage es).

(** Number of parser invocations in a trace. *)
Definition parserCalls (es : list Effect) : nat :=
  length (List.filter is_OutlineFromDoc es).

(** [`${err}`] for an [Error]. *)
Definition error_toString (e : Error) : string := "Error: " ++ message e.

End Host.

(* ================================================================= *)
(** ** treeDataProvider.ts *)

Module Provider.
Import Outliner Host.

Inductive UpdateOn := onSave | onType.

(** The event stream [updateListener] is subscribed to. *)
Inductive Subscription :=
| OnDidChangeTextDocument
| OnDidSaveTextDocument.

(** The fields of [class TreeDataProvider]. *)
Record TreeDataProvider := mkProvider {
  updateListener : option Subscription;
  editor : option TextEditor;
  roots : list loc;
  lastClickedNode : option GinkgoNode;
  lastClickedTime : option Z;
  documentChangedTimer : option nat;
  updateOn : UpdateOn;
  updateOnTypeDelay : Z;
  doubleClickThreshold : Z
}.

(** The provider together with the host state it acts on: the pending
    [setTimeout] handles with the time each is due, the wall clock, and the
    effects so far.  Every timer of this program has the same callback,
    [() => this._onDidChangeTreeData.fire(undefined)]. *)
Record World := mkWorld {
  this : TreeDataProvider;
  timers : list (nat * Z);
  nextTimer : nat;
  clock : Z;
  effects : list Effect
}.

Definition with_this (f : TreeDataProvider -> TreeDataProvider) (w : World)
  : World :=
  mkWorld (f (this w)) (timers w) (nextTimer w) (clock w) (effects w).

Definition emit (e : Effect) (w : World) : World :=
  mkWorld (this w) (timers w) (nextTimer w) (clock w) (effects w ++ [e]).

Definition set_updateListener (s : option Subscription) (p : TreeDataProvider) :=
  mkProvider s (editor p) (roots p) (lastClickedNode p) (lastClickedTime p)
    (documentChangedTimer p) (updateOn p) (updateOnTypeDelay p)
    (doubleClickThreshold p).

Definition set_editor (e : option TextEditor) (p : TreeDataProvider) :=
  mkProvider (updateListener p) e (roots p) (lastClickedNode p)
    (lastClickedTime p) (documentChangedTimer p) (updateOn p)
    (updateOnTypeDelay p) (doubleClickThreshold p).

Definition set_roots (r : list loc) (p : TreeDataProvider) :=
  mkProvider (updateListener p) (editor p) r (lastClickedNode p)
    (lastClickedTime p) (documentChangedTimer p) (updateOn p)
    (updateOnTypeDelay p) (doubleClickThreshold p).

Definition set_lastClicked (n : GinkgoNode) (t : Z) (p : TreeDataProvider) :=
  mkProvider (updateListener p) (editor p) (roots p) (Some n) (Some t)
    (documentChangedTimer p) (updateOn p) (updateOnTypeDelay p)
    (doubleClickThreshold p).

Definition set_documentChangedTimer (t : option nat) (p : TreeDataProvider) :=
  mkProvider (updateListener p) (editor p) (roots p) (lastClickedNode p)
    (lastClickedTime p) t (updateOn p) (updateOnTypeDelay p)
    (doubleClickThreshold p).

Definition set_updateOnTypeDelay (d : Z) (p : TreeDataProvider) :=
  mkProvider (updateListener p) (editor p) (roots p) (lastClickedNode p)
    (lastClickedTime p) (documentChangedTimer p) (updateOn p) d
    (doubleClickThreshold p).

Definition set_doubleClickThreshold (d : Z) (p : TreeDataProvider) :=
  mkProvider (updateListener p) (editor p) (roots p) (lastClickedNode p)
    (lastClickedTime p) (documentChangedTimer p) (updateOn p)
    (updateOnTypeDelay p) d.

(** The longest delay a timer takes, [2^31 - 1] milliseconds. *)
Definition TIMEOUT_MAX : Z := 2147483647.

(** The delay a timer runs with: the host replaces a delay below one
    millisecond, or above [TIMEOUT_MAX], by one millisecond. *)
Definition timer_delay (delay : Z) : Z :=
  if (1 <=? delay) && (delay <=? TIMEOUT_MAX) then delay else 1.

(** [setTimeout(() => fire(undefined), delay)]: a fresh handle, due
    [timer_delay delay] after now. *)
Definition setTimeout (delay : Z) (w : World) : World * nat :=
  (mkWorld (this w) (timers w ++ [(nextTimer w, clock w + timer_delay delay)])
           (S (nextTimer w)) (clock w) (effects w),
   nextTimer w).

(** [clearTimeout(handle)]; a handle that already fired is ignored. *)
Definition clearTimeout (id : nat) (w : World) : World :=
  mkWorld (this w)
          (List.filter (fun tm => negb (Nat.eqb tm.1 id)) (timers w))
          (nextTimer w) (clock w) (effects w).

(** [setUpdateOn]: dispose the current listener, subscribe the stream the
    mode names. *)
Definition setUpdateOn (u : UpdateOn) (w : World) : World :=
  let w1 :=
    match updateListener (this w) with
    | Some _ => with_this (set_updateListener None) w
    | None => w
    end in
  match u with
  | onType => with_this (set_updateListener (Some OnDidChangeTextDocument)) w1
  | onSave => with_this (set_updateListener (Some OnDidSaveTextDocument)) w1
  end.

Definition setUpdateOnTypeDelay (d : Z) (w : World) : World :=
  with_this (set_updateOnTypeDelay (Z.max d 0)) w.

Definition setDoubleClickThreshold (d : Z) (w : World) : World :=
  with_this (set_doubleClickThreshold (Z.max d 0)) w.

Definition isMainEditor (e : TextEditor) : bool :=
  match viewColumn e with Some _ => true | None => false end.

Definition onActiveEditorChanged (e : option TextEditor) (w : World) : World :=
  match e with
  | Some ed =>
      if negb (isMainEditor ed) then w
      else emit Fire (with_this (fun p => set_roots [] (set_editor e p)) w)
  | None => emit Fire (with_this (fun p => set_roots [] (set_editor e p)) w)
  end.

Definition isDocumentForActiveEditor (doc : TextDocument) (w : World) : bool :=
  match editor (this w) with
  | None => false
  | Some ed => String.eqb (uri (document ed)) (uri doc)
  end.

Definition onDocumentChanged (evt : TextDocumentChangeEvent) (w : World)
  : World :=
  if negb (isDocumentForActiveEditor (ev_document evt) w) then w
  else match contentChanges evt with
       | [] => w
       | _ :: _ =>
           let w1 := with_this (set_roots []) w in
           let w2 :=
             match documentChangedTimer (this w1) with
             | Some id =>
                 with_this (set_documentChangedTimer None) (clearTimeout id w1)
             | None => w1
             end in
           let '(w3, id) := setTimeout (updateOnTypeDelay (this w2)) w2 in
           with_this (set_documentChangedTimer (Some id)) w3
       end.

Definition onDocumentSaved (doc : TextDocument) (w : World) : World :=
  if negb (isDocumentForActiveEditor doc w) then w
  else emit Fire (with_this (set_roots []) w).

(** [getChildren].  [outlineFromDoc] is the injected fetch function as it
    answers at this call; the promise it returns is awaited.  The inner
    pair carries [true] when the [catch] clause has returned. *)
Definition getChildren (outlineFromDoc : TextDocument -> Settled Outline)
    (element : option GinkgoNode) (w : World) : World * option (list loc) :=
  match editor (this w) with
  | None => (w, None)
  | Some ed =>
      let doc := document ed in
      if negb (String.eqb (languageId doc) "go") then
        (emit (AppendLine ("Did not populate outline view: document " ++
                           dquote ++ uri doc ++ dquote ++
                           " language is not Go.")) w,
         None)
      else
        let '(w2, caught) :=
          match roots (this w) with
          | [] =>
              let w1 := emit (OutlineFromDoc doc) w in
              match outlineFromDoc doc with
              | Resolved outline =>
                  (with_this (set_roots (nested outline)) w1, false)
              | Rejected err =>
                  (emit (ShowErrorMessage
                           "Could not populate the outline view" ["Open Log"])
                     (emit (AppendLine
                              ("Could not populate the outline view: " ++
                               error_toString err)) w1),
                   true)
              end
          | _ :: _ => (w, false)
          end in
        if caught then (w2, None)
        else match element with
             | None => (w2, Some (roots (this w2)))
             | Some el => (w2, nodes el)
             end
  end.

(** [getChildren] as the two synchronous runs the [await] splits it
    into.  A call either returns in its first run or is left waiting for
    the promise of [outlineFromDoc] on the bound document; whatever the
    host delivers before that promise settles runs in between. *)
Inductive Suspension :=
| Returned (r : option (list loc))
| AwaitingOutline (doc : TextDocument).

(** The run up to the [await]: the guards, and the call of
    [outlineFromDoc] when the cache is empty. *)
Definition getChildren_begin (element : option GinkgoNode) (w : World)
  : World * Suspension :=
  match editor (this w) with
  | None => (w, Returned None)
  | Some ed =>
      let doc := document ed in
      if negb (String.eqb (languageId doc) "go") then
        (emit (AppendLine ("Did not populate outline view: document " ++
                           dquote ++ uri doc ++ dquote ++
                           " language is not Go.")) w,
         Returned None)
      else
        match roots (this w) with
        | [] => (emit (OutlineFromDoc doc) w, AwaitingOutline doc)
        | _ :: _ =>
            (w, Returned (match element with
                          | None => Some (roots (this w))
                          | Some el => nodes el
                          end))
        end
  end.

(** The run after the [await], in the state the provider has by then:
    the cache is written without looking at it again, or the [catch]
    clause runs. *)
Definition getChildren_resume (settled : Settled Outline)
    (element : option GinkgoNode) (w : World) : World * option (list loc) :=
  match settled with
  | Resolved outline =>
      let w2 := with_this (set_roots (nested outline)) w in
      (w2, match element with
           | None => Some (roots (this w2))
           | Some el => nodes el
           end)
  | Rejected err =>
      (emit (ShowErrorMessage
               "Could not populate the outline view" ["Open Log"])
         (emit (AppendLine
                  ("Could not populate the outline view: " ++
                   error_toString err)) w),
       None)
  end.

Definition wasRecentlyClicked (threshold : Z) (lastClickedNode : GinkgoNode)
    (lastClickedTime : Z) (currentNode : GinkgoNode) (currentTime : Z) : bool :=
  let isSameNode :=
    (start lastClickedNode =? start currentNode) &&
    (end_ lastClickedNode =? end_ currentNode) in
  let wasRecentlyClicked := currentTime - lastClickedTime <? threshold in
  isSameNode && wasRecentlyClicked.

(** Truthiness of a number: zero is falsy. *)
Definition truthy_number (z : Z) : bool := negb (z =? 0).

Definition highlight_effects (ed : TextEditor) (n : GinkgoNode) : list Effect :=
  [HighlightNode ed n].

Definition navigate_effects (ed : TextEditor) (n : GinkgoNode) : list Effect :=
  [SetSelectionToNodeStart ed n; HighlightOff ed;
   ExecuteCommand "workbench.action.focusActiveEditorGroup"].

Definition emit_all (es : list Effect) (w : World) : World :=
  mkWorld (this w) (timers w) (nextTimer w) (clock w) (effects w ++ es).

(** [clickTreeItem]; [now] is what [Date.now()] answers at the call. *)
Definition clickTreeItem (element : GinkgoNode) (now : Z) (w : World) : World :=
  match editor (this w) with
  | None => w
  | Some ed =>
      let recentlyClicked :=
        match lastClickedTime (this w), lastClickedNode (this w) with
        | Some t, Some n =>
            if truthy_number t
            then wasRecentlyClicked (doubleClickThreshold (this w)) n t
                                    element now
            else false
        | _, _ => false
        end in
      let w1 := with_this (set_lastClicked element now) w in
      if negb recentlyClicked then emit_all (highlight_effects ed element) w1
      else emit_all (navigate_effects ed element) w1
  end.

(** The constructor: bind the active editor, subscribe, clamp the delay. *)
Definition new (activeTextEditor : option TextEditor) (u : UpdateOn)
    (delay threshold : Z) (now : Z) : World :=
  setUpdateOnTypeDelay delay
    (setUpdateOn u
       (mkWorld (mkProvider None activeTextEditor [] None None None
                            u delay threshold)
                [] O now [])).

(** Events the host delivers, and configuration changes. *)
Inductive Event :=
| DidChangeTextDocument (evt : TextDocumentChangeEvent)
| DidSaveTextDocument (doc : TextDocument)
| DidChangeActiveTextEditor (e : option TextEditor)
| ConfigureUpdateOn (u : UpdateOn).

(** An emitter calls a listener only while it is subscribed. *)
Definition deliver (ev : Event) (w : World) : World :=
  match ev with
  | DidChangeTextDocument evt =>
      match updateListener (this w) with
      | Some OnDidChangeTextDocument => onDocumentChanged evt w
      | _ => w
      end
  | DidSaveTextDocument doc =>
      match updateListener (this w) with
      | Some OnDidSaveTextDocument => onDocumentSaved doc w
      | _ => w
      end
  | DidChangeActiveTextEditor e => onActiveEditorChanged e w
  | ConfigureUpdateOn u => setUpdateOn u w
  end.

(** Time passes until [t]: every pending timer due by then runs its
    callback and is gone.  All callbacks are the same single [fire], so
    their relative order is not observable. *)
Definition advance (t : Z) (w : World) : World :=
  mkWorld (this w)
          (List.filter (fun tm => negb (tm.2 <=? t)) (timers w))
          (nextTimer w) (Z.max (clock w) t)
          (effects w ++
           map (fun _ => Fire) (List.filter (fun tm => tm.2 <=? t) (timers w))).

(** An event that arrives at time [t]. *)
Definition step (w : World) (tev : Z * Event) : World :=
  deliver tev.2 (advance tev.1 w).

Definition run (evs : list (Z * Event)) (w : World) : World :=
  fold_left step evs w.

End Provider.

(* ================================================================= *)
(** ** symbolPicker.ts *)

Module SymbolPicker.
Import Outliner Host Provider.

(** [fromTextEditor] up to [picker.show()]: the picker's own callbacks run
    later, on user input.  The fetch is awaited outside any [try], so a
    rejection rejects the call. *)
Definition fromTextEditor (ed : TextEditor)
    (outlineFromDoc : TextDocument -> Settled Outline) (w : World)
  : World * Settled unit :=
  let doc := document ed in
  if negb (String.eqb (languageId doc) "go") then
    (emit (ShowQuickPick [])
       (emit (AppendLine ("Did not populate Go To Symbol menu: document " ++
                          dquote ++ uri doc ++ dquote ++
                          " language is not Go.")) w),
     Resolved tt)
  else
    let w1 := emit (OutlineFromDoc doc) w in
    match outlineFromDoc doc with
    | Rejected err => (w1, Rejected err)
    | Resolved out => (emit (QuickPickShow (flat out)) w1, Resolved tt)
    end.

End SymbolPicker.

(* ================================================================= *)
(** ** Layout of a parsed forest in the store

    Auxiliary, pure descriptions of where [JSON_parse] puts the records
    and of the order in which [preOrder] meets them. *)

Module Layout.
Import Outliner.

(** Number of records in a tree. *)
Fixpoint size (j : JsonNode) : nat :=
  match j with
  | JNode _ _ _ _ _ _ _ cs =>
      S (match cs with None => O | Some js => list_sum (map size js) end)
  end.

(** Total count of nodes across a forest. *)
Definition forest_size (js : list JsonNode) : nat := list_sum (map size js).

(** Nesting depth of a tree. *)
Fixpoint depth (j : JsonNode) : nat :=
  match j with
  | JNode _ _ _ _ _ _ _ cs =>
      S (match cs with None => O | Some js => list_max (map depth js) end)
  end.

Definition forest_depth (js : list JsonNode) : nat := list_max (map depth js).

(** Every record of the tree carries a [nodes] member. *)
Fixpoint complete (j : JsonNode) : bool :=
  match j with
  | JNode _ _ _ _ _ _ _ cs =>
      match cs with None => false | Some js => forallb complete js end
  end.

Definition forest_complete (js : list JsonNode) : bool := forallb complete js.

(** Address of the root of a tree laid out from address [b]. *)
Definition root_loc (b : nat) (j : JsonNode) : loc := (b + pred (size j))%nat.

(** Addresses of the roots of consecutive trees laid out from [b]. *)
Fixpoint kid_locs (b : nat) (js : list JsonNode) : list loc :=
  match js with
  | [] => []
  | j :: js' => root_loc b j :: kid_locs (b + size j)%nat js'
  end.

Section Threaded.
Context {A : Type}.
Variable g : nat -> JsonNode -> list A.

(** [g] over consecutive trees, each from the address where the previous
    one ends. *)
Fixpoint threaded (b : nat) (js : list JsonNode) : list A :=
  match js with
  | [] => []
  | j :: js' => g b j ++ threaded (b + size j)%nat js'
  end.
End Threaded.

(** The object a record becomes when its tree is laid out from [b]. *)
Definition obj (b : nat) (j : JsonNode) : GinkgoNode :=
  match j with
  | JNode n t s e sp f p cs =>
      mkGinkgoNode n t s e sp f p
        (match cs with None => None | Some js => Some (kid_locs b js) end)
        None
  end.

(** The records of a tree in the order they are allocated, each with the
    address its own subtree starts at. *)
Fixpoint subnodes (b : nat) (j : JsonNode) {struct j} : list (nat * JsonNode) :=
  match j with
  | JNode _ _ _ _ _ _ _ cs =>
      match cs with None => [] | Some js => threaded subnodes b js end
      ++ [(b, j)]
  end.

(** The objects of a tree laid out from [b]. *)
Definition seg (b : nat) (j : JsonNode) : list GinkgoNode :=
  map (fun bj => obj bj.1 bj.2) (subnodes b j).

(** Addresses of a tree laid out from [b], in pre-order. *)
Fixpoint pre (b : nat) (j : JsonNode) {struct j} : list loc :=
  match j with
  | JNode _ _ _ _ _ _ _ cs =>
      root_loc b j ::
      match cs with None => [] | Some js => threaded pre b js end
  end.

(** The records of a tree in pre-order: a record, then the records of
    each of its children's trees, left to right. *)
Fixpoint preorder (j : JsonNode) : list JsonNode :=
  match j with
  | JNode _ _ _ _ _ _ _ cs =>
      j :: match cs with None => [] | Some js => flat_map preorder js end
  end.

(** The seven metadata fields. *)
Definition label : Type := string * string * Z * Z * bool * bool * bool.

Definition json_label (j : JsonNode) : label :=
  match j with JNode n t s e sp f p _ => (n, t, s, e, sp, f, p) end.

Definition node_label (o : GinkgoNode) : label :=
  (name o, text o, start o, end_ o, spec o, focused o, pending o).

(** The object with its [parent] cleared. *)
Definition strip (o : GinkgoNode) : GinkgoNode :=
  mkGinkgoNode (name o) (text o) (start o) (end_ o) (spec o) (focused o)
               (pending o) (nodes o) None.

(** The store holds the objects [s] from address [b] on, up to [parent]. *)
Definition emb (b : nat) (s : list GinkgoNode) (H : heap) : Prop :=
  forall i o, s !! i = Some o -> strip <$> H !! (b + i)%nat = Some o.

(** Two stores differ in [parent] fields only. *)
Definition skel (H H' : heap) : Prop :=
  forall i, strip <$> H' !! i = strip <$> H !! i.

(** [c] is one of the children of [p] in the store. *)
Definition child_of (H : heap) (p c : loc) : Prop :=
  exists o cs, H !! p = Some o /\ nodes o = Some cs /\ c ∈ cs.

(** [d] is below [p] in the store. *)
Inductive descendant (H : heap) : loc -> loc -> Prop :=
| desc_child p c : child_of H p c -> descendant H p c
| desc_step p c d : child_of H p c -> descendant H c d -> descendant H p d.

(** [x] occurs in [l] at an earlier index than [y]. *)
Definition before {A} (x y : A) (l : list A) : Prop :=
  exists i k, l !! i = Some x /\ l !! k = Some y /\ (i < k)%nat.

(** Within addresses [b .. b+n-1], the children of every object lie
    between [b] and the object and have it as [parent]. *)
Definition kids_ok (b n : nat) (H : heap) : Prop :=
  forall p o cs c,
    (b <= p < b + n)%nat -> H !! p = Some o -> nodes o = Some cs -> c ∈ cs ->
    (b <= c < p)%nat /\ parent <$> H !! c = Some (Some p).

(** Effect of traversing one tree laid out from [b]: only [parent] fields
    change, and only strictly inside the tree. *)
Definition post (b n : nat) (H H' : heap) : Prop :=
  skel H H' /\
  forall i, (i < b \/ b + pred n <= i)%nat -> H' !! i = H !! i.

(** Effect of traversing a forest laid out from [b]: as [post], and the
    roots of the forest keep their [parent]. *)
Definition postL (b : nat) (js : list JsonNode) (H H' : heap) : Prop :=
  skel H H' /\
  (forall i, (i < b \/ b + forest_size js <= i)%nat -> H' !! i = H !! i) /\
  (forall c, c ∈ kid_locs b js -> H' !! c = H !! c).

(** What [preOrder visit] does on a tree, by outcome. *)
Definition traverse_node (j : JsonNode) : Prop :=
  forall b H fl fuel,
    emb b (seg b j) H -> (depth j < fuel)%nat ->
    match preOrder visit fuel (root_loc b j) (H, fl) with
    | Ok (H', fl') =>
        complete j = true /\ fl' = fl ++ pre b j /\
        post b (size j) H H' /\ kids_ok b (size j) H'
    | Throw e => complete j = false /\ e = not_iterable
    | OutOfFuel => False
    end.

(** What the loop over a list of roots does, by outcome. *)
Definition traverse_forest (js : list JsonNode) : Prop :=
  forall b H fl fuel,
    emb b (threaded seg b js) H -> (forest_depth js < fuel)%nat ->
    match for_of (preOrder visit fuel) (kid_locs b js) (H, fl) with
    | Ok (H', fl') =>
        forest_complete js = true /\ fl' = fl ++ threaded pre b js /\
        postL b js H H' /\ kids_ok b (forest_size js) H'
    | Throw e => forest_complete js = false /\ e = not_iterable
    | OutOfFuel => False
    end.

(** The object at [l] carries the metadata of the record [j]. *)
Definition labelled (H : heap) (l : loc) (j : JsonNode) : Prop :=
  node_label <$> H !! l = Some (json_label j).

(** Children come after their parent, in the order of the parent's list. *)
Definition ordered_node (j : JsonNode) : Prop :=
  forall b H p o cs, emb b (seg b j) H ->
    (b <= p < b + size j)%nat -> H !! p = Some o -> nodes o = Some cs ->
    (forall c, c ∈ cs -> before p c (pre b j)) /\
    (forall x y, before x y cs -> before x y (pre b j)).

Definition ordered_forest (js : list JsonNode) : Prop :=
  forall b H p o cs, emb b (threaded seg b js) H ->
    (b <= p < b + forest_size js)%nat -> H !! p = Some o -> nodes o = Some cs ->
    (forall c, c ∈ cs -> before p c (threaded pre b js)) /\
    (forall x y, before x y cs -> before x y (threaded pre b js)).

(** The object at [l] stands for the record [j]: it carries the record's
    metadata, and its [nodes] is missing when the record's is, and
    otherwise lists, in order, objects that stand for the record's
    children. *)
#[warnings="-register-all"]
Inductive represents (H : heap) : loc -> JsonNode -> Prop :=
| represents_record l o n t s e sp f p cs :
    H !! l = Some o ->
    node_label o = (n, t, s, e, sp, f, p) ->
    option_Forall2 (Forall2 (represents H)) (nodes o) cs ->
    represents H l (JNode n t s e sp f p cs).

(** [needle] occurs in [s] at index [k]. *)
Definition occurs_at (needle s : string) (k : nat) : Prop :=
  substring k (String.length needle) s = needle.

End Layout.

(* ================================================================= *)
(** ** Sessions: bursts of edits and recorded clicks *)

Module Session.
Import Outliner Host Provider.

(** An edit the [onType] policy reacts to: it is to the document of the
    bound editor and changes some content. *)
Definition qualifying (ed : TextEditor) (evt : TextDocumentChangeEvent) : Prop :=
  uri (ev_document evt) = uri (document ed) /\ contentChanges evt <> [].



Definition is_edit (te : Z * Event) : Prop :=
  exists evt, te.2 = DidChangeTextDocument evt.

(** The provider after a qualifying edit at [t]: one pending timer, due
    at [t + D], where [D] is the delay a timer runs with under the
    provider's setting, and nothing fired beyond [es]. *)
Record debouncing (ed : TextEditor) (D : Z) (es : list Effect) (t : Z)
    (w : World) : Prop := {
  db_timers : exists id, timers w = [(id, t + D)] /\
                         documentChangedTimer (this w) = Some id;
  db_clock : clock w = t;
  db_listener : updateListener (this w) = Some OnDidChangeTextDocument;
  db_editor : editor (this w) = Some ed;
  db_delay : timer_delay (updateOnTypeDelay (this w)) = D;
  db_roots : roots (this w) = [];
  db_effects : effects w = es
}.

(** Consecutive [getChildren] requests for the elements [els], the fetch
    function answering as [f] each time. *)
Definition requests (f : TextDocument -> Settled Outline)
    (els : list (option GinkgoNode)) (w : World) : World :=
  fold_left (fun w' el => (getChildren f el w').1) els w.

(** The classification one activation gets, from the recorded state. *)
Definition recently (w : World) (n : GinkgoNode) (t : Z) : bool :=
  match lastClickedTime (this w), lastClickedNode (this w) with
  | Some t0, Some n0 =>
      truthy_number t0 &&
      wasRecentlyClicked (doubleClickThreshold (this w)) n0 t0 n t
  | _, _ => false
  end.

End Session.

(* ================================================================= *)
(** ** Fixtures *)

Module Fixture.
Import Outliner Host Provider.

Definition container (n t : string) (s e : Z) (js : list JsonNode) : JsonNode :=
  JNode n t s e false false false (Some js).

(** A runnable node as the fixture writes it: no [nodes] member. *)
Definition bare (n t : string) (s e : Z) (sp : bool) : JsonNode :=
  JNode n t s e sp false false None.

(** [sampleOutput] of [outliner.unit.test.ts], parsed. *)
Definition sampleOutput : list JsonNode :=
  [container "Describe" "NormalFixture" 116 605
     [container "Describe" "normal" 152 244
        [JNode "It" "normal" 182 240 true false false
           (Some [bare "By" "step 1" 207 219 false;
                  bare "By" "step 2" 223 235 false])];
      container "Context" "normal" 247 307
        [bare "It" "normal" 276 303 true];
      container "When" "normal" 310 367
        [bare "It" "normal" 336 363 true];
      bare "It" "normal" 370 396 true;
      bare "Specify" "normal" 399 430 true;
      bare "Measure" "normal" 433 480 true;
      container "DescribeTable" "normal" 483 541
        [bare "Entry" "normal" 522 537 true];
      container "DescribeTable" "normal" 544 602
        [bare "Entry" "normal" 583 598 true]]].

(** A single record without [nodes]. *)
Definition loneLeaf : list JsonNode := [bare "It" "normal" 370 396 true].

(** A forest whose records all carry [nodes]. *)
Definition completeForest : list JsonNode :=
  [container "Describe" "outer" 10 90
     [container "Context" "inner" 20 50
        [JNode "It" "first" 25 30 true false false (Some []);
         JNode "It" "second" 35 40 true false false (Some [])];
      JNode "It" "third" 60 80 true false false (Some [])];
   JNode "It" "alone" 100 120 true false false (Some [])].

Definition goDocument : TextDocument :=
  mkTextDocument "file:///suite_test.go" "go".

Definition goEditor : TextEditor := mkTextEditor goDocument (Some 1%nat).

(** An editor without a view column, such as the output pane. *)
Definition outputPane : TextEditor :=
  mkTextEditor (mkTextDocument "output:log" "log") None.

(** A provider just constructed at time 1000: [onType], delay 300,
    threshold 500. *)
Definition freshWorld : World := new (Some goEditor) onType 300 500 1000.

(** The provider 50 after an edit at 1000: a timer is pending, due 1300. *)
Definition typingWorld : World :=
  advance 1050
    (step freshWorld
          (1000, DidChangeTextDocument (mkChangeEvent goDocument ["x"%string]))).

(** The rejection [callGinkgoOutline] builds from the CLI's diagnostic. *)
Definition notGinkgoError : Error :=
  mkError ("error running ginkgo (error code 1): " ++
           ginkgoImportsNotFoundError).

Definition keystroke : TextDocumentChangeEvent :=
  mkChangeEvent goDocument ["x"%string].

Definition itNode : GinkgoNode :=
  mkGinkgoNode "It" "normal" 370 396 true false false (Some []) None.

End Fixture.

(* ================================================================= *)
(** ** outliner.ts: the ginkgo process *)

Module Process.
Import Outliner Host.

(** [err.code] of a failed child process: an exit status or the name of
    an errno. *)
Inductive ErrorCode :=
| ExitStatus (n : Z)
| ErrnoName (s : string).

Record ExecFileException := mkExecFileException {
  cmd : string;
  code : option ErrorCode
}.

(** What [cp.execFile] gives: the child ([pid] unset when it could not be
    spawned, [stdin] telling whether the pipe exists) and, once it has
    ended, the arguments of the callback. *)
Record ChildRun := mkChildRun {
  pid : option nat;
  stdin : bool;
  failure : option ExecFileException;
  stdout : string;
  stderr : string
}.

(** [`${n}`] for an integral number. *)
Definition number_toString (z : Z) : string :=
  NilZero.string_of_int (Z.to_int z).

Definition code_toString (c : ErrorCode) : string :=
  match c with
  | ExitStatus n => number_toString n
  | ErrnoName s => s
  end.

Definition truthy_code (c : option ErrorCode) : bool :=
  match c with
  | None => false
  | Some (ExitStatus n) => negb (n =? 0)
  | Some (ErrnoName s) => truthy_string s
  end.

(** The callback given to [cp.execFile]. *)
Definition on_exit (err : option ExecFileException) (out errout : string)
  : Settled string :=
  match err with
  | Some e =>
      let msg := ("error running " ++ dquote ++ cmd e ++ dquote)%string in
      let msg1 :=
        match code e with
        | Some c =>
            if truthy_code (code e)
            then (msg ++ " (error code " ++ code_toString c ++ ")")%string
            else msg
        | None => msg
        end in
      let msg2 :=
        if truthy_string errout then (msg1 ++ ": " ++ errout)%string
        else msg1 in
      Rejected (mkError msg2)
  | None => Resolved out
  end.

Definition stdin_missing : Error :=
  mkError "unable to write to stdin of ginkgo process: pipe does not exist".

(** [callGinkgoOutline].  The executor checks the pipe before the child
    can end, and a promise keeps its first settlement. *)
Definition callGinkgoOutline
    (execFile : string -> list string -> TextDocument -> ChildRun)
    (ginkgoPath : string) (doc : TextDocument) : Settled string :=
  let p := execFile ginkgoPath ["outline"; "--format=json"; "-"]%string doc in
  match pid p with
  | Some (S _) =>
      if negb (stdin p) then Rejected stdin_missing
      else on_exit (failure p) (stdout p) (stderr p)
  | _ => on_exit (failure p) (stdout p) (stderr p)
  end.

(** [Outliner.fromDocument]; [decode] is [JSON.parse] on the CLI's output,
    throwing on text that is not JSON.  A rejection is a [Throw]. *)
Definition fromDocument (decode : string -> result (list JsonNode))
    (execFile : string -> list string -> TextDocument -> ChildRun)
    (ginkgoPath : string) (doc : TextDocument) (h0 : heap)
  : result (Outline * heap) :=
  match callGinkgoOutline execFile ginkgoPath doc with
  | Rejected e => Throw e
  | Resolved output => let* input := decode output in fromJSON input h0
  end.

End Process.

(* ================================================================= *)
(** ** treeDataProvider.ts: tree items *)

Module TreeItems.
Import Outliner Host Provider Process.

Inductive TreeItemCollapsibleState :=
| CollapsibleNone
| Collapsed
| Expanded.

Record ThemeIcon := mkThemeIcon { icon_id : string }.

Record MarkdownString := mkMarkdownString {
  md_value : string;
  supportThemeIcons : bool
}.

Record Command := mkCommand {
  command : string;
  arguments : list GinkgoNode;
  title : string
}.

Record TreeItem := mkTreeItem {
  item_label : string;
  collapsibleState : TreeItemCollapsibleState;
  iconPath : option ThemeIcon;
  tooltip : MarkdownString;
  item_command : Command
}.

Definition newline : string := String (Ascii.ascii_of_nat 10) EmptyString.

Definition bool_toString (b : bool) : string :=
  if b then "true" else "false".

(** The end of a line of the tooltip template: two spaces, the escape
    [\n], and the line break of the template itself. *)
Definition line_end : string := ("  " ++ newline ++ newline)%string.

Definition tooltipForGinkgoNode (element : GinkgoNode) : MarkdownString :=
  mkMarkdownString
    ("**name:** " ++ name element ++ line_end ++
     "**text:** " ++ text element ++ line_end ++
     "**start:** " ++ number_toString (start element) ++ line_end ++
     "**end:** " ++ number_toString (end_ element) ++ line_end ++
     "**spec:** " ++ bool_toString (spec element) ++ line_end ++
     "**focused:** " ++ bool_toString (focused element) ++ line_end ++
     "**pending:** " ++ bool_toString (pending element))
    false.

Section Decoration.
(** [util/decoration] is not part of the sources at hand. *)
Variable labelForGinkgoNode : GinkgoNode -> string.
Variable iconForGinkgoNode : GinkgoNode -> option ThemeIcon.

(** [getTreeItem]; reading [length] of a missing [nodes] throws. *)
Definition getTreeItem (clickTreeItemCommand : string) (element : GinkgoNode)
  : result TreeItem :=
  let label := labelForGinkgoNode element in
  match nodes element with
  | None => Throw undefined_reference
  | Some cs =>
      let state := match cs with [] => CollapsibleNone | _ :: _ => Expanded end in
      Ok (mkTreeItem label state (iconForGinkgoNode element)
                     (tooltipForGinkgoNode element)
                     (mkCommand clickTreeItemCommand [element] EmptyString))
  end.
End Decoration.

End TreeItems.

(* ================================================================= *)
(** ** symbolPicker.ts: the picker once it is shown *)

Module QuickPick.
Import Outliner Host Provider TreeItems.


Record GinkgoNodeItem := mkGinkgoNodeItem {
  qp_label : string;
  description : string;
  detail : string;
  node : GinkgoNode
}.

Section Decoration.
Variable labelForGinkgoNode : GinkgoNode -> string.
Variable iconForGinkgoNode : GinkgoNode -> option ThemeIcon.

(** The constructor of [GinkgoNodeItem]. *)
Definition newGinkgoNodeItem (n : GinkgoNode) : GinkgoNodeItem :=
  let label0 :=
    match iconForGinkgoNode n with
    | Some icon => ("$(" ++ icon_id icon ++ ") ")%string
    | None => EmptyString
    end in
  mkGinkgoNodeItem (label0 ++ labelForGinkgoNode n)%string
                   EmptyString EmptyString n.
End Decoration.













End QuickPick.

(* ================================================================= *)
(** ** Whole sessions of the provider *)

Module Whole.
Import Outliner Host Provider.

(** Everything that can happen to a provider. *)
Inductive Action :=
| HostEvent (ev : Event)
| Request (outlineFromDoc : TextDocument -> Settled Outline)
          (element : option GinkgoNode)
| Click (element : GinkgoNode)
| SetDelay (d : Z)
| SetThreshold (d : Z).

(** An action at time [t]; [Date.now()] is the clock. *)
Definition act (w : World) (ta : Z * Action) : World :=
  let w1 := advance ta.1 w in
  match ta.2 with
  | HostEvent ev => deliver ev w1
  | Request f el => (getChildren f el w1).1
  | Click n => clickTreeItem n (clock w1) w1
  | SetDelay d => setUpdateOnTypeDelay d w1
  | SetThreshold d => setDoubleClickThreshold d w1
  end.

Definition session (acts : list (Z * Action)) (w : World) : World :=
  fold_left act acts w.

(** No timer is pending, or one is and the provider holds its handle. *)
Definition tidy (w : World) : Prop :=
  timers w = [] \/
  exists id due, timers w = [(id, due)] /\
                 documentChangedTimer (this w) = Some id.

(** The saves among [evs] that are of the document of [w]'s editor. *)
Definition saves_of (w : World) (evs : list (Z * Event)) : nat :=
  length (List.filter
            (fun te => match te.2 with
                       | DidSaveTextDocument doc => isDocumentForActiveEditor doc w
                       | _ => false
                       end) evs).

Definition is_document_event (te : Z * Event) : Prop :=
  match te.2 with
  | DidChangeTextDocument _ | DidSaveTextDocument _ => True
  | _ => False
  end.

Definition is_click (ta : Z * Action) : Prop :=
  match ta.2 with Click _ => True | _ => False end.

(** The events that empty the cache of a provider bound to [ed]: a save
    of its document under [onSave], an edit of it under [onType], a
    change of the active editor to a main Go editor. *)
Inductive invalidating (w : World) (ed : TextEditor) : Event -> Prop :=
| invalidating_save doc :
    updateListener (this w) = Some OnDidSaveTextDocument ->
    uri doc = uri (document ed) ->
    invalidating w ed (DidSaveTextDocument doc)
| invalidating_edit evt :
    updateListener (this w) = Some OnDidChangeTextDocument ->
    Session.qualifying ed evt ->
    invalidating w ed (DidChangeTextDocument evt)
| invalidating_editor ed' :
    viewColumn ed' <> None ->
    languageId (document ed') = "go"%string ->
    invalidating w ed (DidChangeActiveTextEditor (Some ed')).

(** The editor bound after an event. *)
Definition editor_after (ed : TextEditor) (ev : Event) : TextEditor :=
  match ev with
  | DidChangeActiveTextEditor (Some ed') => ed'
  | _ => ed
  end.

(** What a request answers from a cache holding [rs]. *)
Definition answer (element : option GinkgoNode) (rs : list loc)
  : option (list loc) :=
  match element with
  | None => Some rs
  | Some el => nodes el
  end.

(** [l] is a root or below a root. *)
Definition reachable (H : heap) (roots : list loc) (l : loc) : Prop :=
  l ∈ roots \/ exists r, r ∈ roots /\ Layout.descendant H r l.

End Whole.

(* ================================================================= *)
(** ** More fixtures *)

Module Samples.
Import Outliner Host Provider Process Fixture.

(** A run of the CLI on a Go file that does not import ginkgo. *)
Definition failingGinkgo (path : string) (args : list string)
    (doc : TextDocument) : ChildRun :=
  mkChildRun (Some 4242%nat) true
             (Some (mkExecFileException "ginkgo outline --format=json -"
                                        (Some (ExitStatus 1))))
             EmptyString
             (ginkgoImportsNotFoundError ++ TreeItems.newline).

(** A provider in [onSave] mode with an outline in its cache. *)
Definition savingWorld : World :=
  (getChildren (fun _ => Resolved (mkOutline [4; 5]%nat [4; 2; 0; 1; 3; 5]%nat))
               None (new (Some goEditor) onSave 300 500 1000)).1.

Definition otherDocument : TextDocument :=
  mkTextDocument "file:///other_test.go" "go".

Definition secondEditor : TextEditor := mkTextEditor otherDocument (Some 2%nat).

End Samples.

(* ================================================================= *)
(** * Properties *)

Import Outliner Host Provider SymbolPicker Layout Session Fixture.

(* ================================================================= *)
(** ** The builder *)

Open Scope nat_scope.

(** *** Induction on a record and on a forest together *)

Section JsonInduction.
Variable P : JsonNode -> Prop.
Variable Q : list JsonNode -> Prop.
Hypothesis Hleaf : forall n t s e sp f p, P (JNode n t s e sp f p None).
Hypothesis Hnode :
  forall n t s e sp f p js, Q js -> P (JNode n t s e sp f p (Some js)).
Hypothesis Hnil : Q [].
Hypothesis Hcons : forall j js, P j -> Q js -> Q (j :: js).

Lemma json_tree_ind : forall j, P j.
Proof.
  fix IH 1. intros [n t s e sp f p [js|]].
  - apply Hnode. induction js as [|j js IHjs].
    + exact Hnil.
    + apply Hcons; [apply IH | exact IHjs].
  - apply Hleaf.
Qed.

Lemma json_forest_ind : forall js, Q js.
Proof.
  induction js as [|j js IHjs]; [exact Hnil|].
  apply Hcons; [apply json_tree_ind | exact IHjs].
Qed.

Lemma json_both_ind : (forall j, P j) /\ (forall js, Q js).
Proof. split; [exact json_tree_ind | exact json_forest_ind]. Qed.
End JsonInduction.

(** *** Sizes and layout *)

Lemma size_pos j : 0 < size j.
Proof. destruct j; simpl; lia. Qed.

Lemma size_node n t s e sp f p js :
  size (JNode n t s e sp f p (Some js)) = S (forest_size js).
Proof. reflexivity. Qed.

Lemma forest_size_cons j js : forest_size (j :: js) = size j + forest_size js.
Proof. reflexivity. Qed.

Lemma subnodes_length :
  (forall j b, length (subnodes b j) = size j) /\
  (forall js b, length (threaded subnodes b js) = forest_size js).
Proof.
  apply json_both_ind.
  - reflexivity.
  - intros n t s e sp f p js IH b. cbn [subnodes].
    rewrite length_app, IH. simpl. unfold forest_size. lia.
  - reflexivity.
  - intros j js IHj IHjs b. cbn [threaded].
    rewrite length_app, IHj, IHjs. reflexivity.
Qed.

Lemma threaded_seg js : forall b,
  threaded seg b js = map (fun bj => obj bj.1 bj.2) (threaded subnodes b js).
Proof.
  induction js as [|j js IH]; intros b; [reflexivity|].
  cbn [threaded]. rewrite map_app, IH. reflexivity.
Qed.

Lemma seg_length b j : length (seg b j) = size j.
Proof. unfold seg. rewrite length_map. apply subnodes_length. Qed.

Lemma threaded_seg_length b js : length (threaded seg b js) = forest_size js.
Proof. rewrite threaded_seg, length_map. apply subnodes_length. Qed.

Lemma seg_node b n t s e sp f p js :
  seg b (JNode n t s e sp f p (Some js)) =
  threaded seg b js ++ [obj b (JNode n t s e sp f p (Some js))].
Proof. unfold seg. cbn [subnodes]. rewrite map_app, threaded_seg. reflexivity. Qed.

Lemma seg_leaf b n t s e sp f p :
  seg b (JNode n t s e sp f p None) = [obj b (JNode n t s e sp f p None)].
Proof. reflexivity. Qed.

(** [JSON_parse] appends the layout of the forest to the store. *)
Lemma alloc_layout :
  (forall j h, alloc j h = (root_loc (length h) j, h ++ seg (length h) j)) /\
  (forall js h, alloc_all alloc js h =
                (kid_locs (length h) js, h ++ threaded seg (length h) js)).
Proof.
  apply json_both_ind.
  - intros n t s e sp f p h. cbn [alloc]. unfold root_loc. simpl size.
    rewrite seg_leaf. f_equal. simpl. lia.
  - intros n t s e sp f p js IH h. cbn [alloc]. rewrite IH.
    rewrite seg_node, length_app, threaded_seg_length.
    unfold root_loc. rewrite size_node. simpl pred.
    rewrite <- app_assoc. reflexivity.
  - intros h. simpl. rewrite app_nil_r. reflexivity.
  - intros j js IHj IHjs h. cbn [alloc_all]. rewrite IHj, IHjs.
    rewrite length_app, seg_length. cbn [kid_locs threaded].
    rewrite <- app_assoc. reflexivity.
Qed.

Lemma kid_locs_range js : forall b c,
  c ∈ kid_locs b js -> b <= c < b + forest_size js.
Proof.
  induction js as [|j js IH]; intros b c Hc; simpl in Hc.
  - inversion Hc.
  - rewrite forest_size_cons. pose proof (size_pos j).
    apply elem_of_cons in Hc as [->|Hc].
    + unfold root_loc. lia.
    + apply IH in Hc. lia.
Qed.

Lemma kid_locs_NoDup js : forall b, NoDup (kid_locs b js).
Proof.
  induction js as [|j js IH]; intros b; simpl; constructor.
  - intros Hc. apply kid_locs_range in Hc. unfold root_loc in Hc.
    pose proof (size_pos j). lia.
  - apply IH.
Qed.

(** *** Stores that differ in [parent] fields only *)

Lemma skel_refl H : skel H H.
Proof. intros i. reflexivity. Qed.

Lemma skel_trans H1 H2 H3 : skel H1 H2 -> skel H2 H3 -> skel H1 H3.
Proof. intros A B i. rewrite B. apply A. Qed.

Lemma alter_skel n c H : skel H (alter (set_parent n) c H).
Proof.
  intros i. rewrite list_lookup_alter. destruct (decide (c = i)) as [->|]; [|reflexivity].
  destruct (H !! i); reflexivity.
Qed.

Lemma annotate_skel n cs : forall H, skel H (annotate n cs H).
Proof.
  induction cs as [|c cs IH]; intros H; [apply skel_refl|].
  unfold annotate. simpl. eapply skel_trans; [apply alter_skel | apply IH].
Qed.

Lemma annotate_other n cs : forall H i, i ∉ cs -> annotate n cs H !! i = H !! i.
Proof.
  induction cs as [|c cs IH]; intros H i Hi; [reflexivity|].
  unfold annotate. simpl. apply not_elem_of_cons in Hi as [Hne Hi].
  fold (annotate n cs (alter (set_parent n) c H)).
  rewrite IH by assumption. apply list_lookup_alter_ne. congruence.
Qed.

Lemma annotate_parent n cs : forall H c,
  c ∈ cs \/ parent <$> H !! c = Some (Some n) ->
  is_Some (H !! c) ->
  parent <$> annotate n cs H !! c = Some (Some n).
Proof.
  induction cs as [|x cs IH]; intros H c Hc [o Ho].
  - destruct Hc as [Hc|Hc]; [inversion Hc | exact Hc].
  - unfold annotate. simpl. fold (annotate n cs (alter (set_parent n) x H)).
    destruct (decide (x = c)) as [->|Hne].
    + apply IH.
      * right. rewrite list_lookup_alter_eq, Ho. reflexivity.
      * rewrite list_lookup_alter_eq, Ho. eexists; reflexivity.
    + apply IH.
      * rewrite list_lookup_alter_ne by assumption.
        destruct Hc as [Hc|Hc]; [|right; exact Hc].
        apply elem_of_cons in Hc as [->|Hc]; [congruence | left; exact Hc].
      * rewrite list_lookup_alter_ne by assumption. eexists; exact Ho.
Qed.

Lemma emb_app b s1 s2 H :
  emb b (s1 ++ s2) H -> emb b s1 H /\ emb (b + length s1) s2 H.
Proof.
  intros E. split; intros i o Hi.
  - apply E. rewrite lookup_app_l; [exact Hi|]. eapply lookup_lt_Some; eauto.
  - rewrite <- Nat.add_assoc. apply E. rewrite lookup_app_r by lia.
    replace (length s1 + i - length s1) with i by lia. exact Hi.
Qed.

Lemma emb_skel b s H H' : emb b s H -> skel H H' -> emb b s H'.
Proof. intros E S i o Hi. rewrite S. apply E, Hi. Qed.

Lemma emb_root b j H :
  emb b (seg b j) H ->
  exists o, H !! root_loc b j = Some o /\ nodes o = nodes (obj b j).
Proof.
  intros E. specialize (E (pred (size j)) (obj b j)).
  assert (seg b j !! pred (size j) = Some (obj b j)) as Hs.
  { destruct j as [n t s e sp f p [js|]].
    - rewrite seg_node, size_node. simpl pred.
      rewrite lookup_app_r; rewrite threaded_seg_length; [|lia].
      rewrite Nat.sub_diag. reflexivity.
    - reflexivity. }
  specialize (E Hs). unfold root_loc.
  destruct (H !! (b + pred (size j))) as [o|]; [|discriminate].
  exists o. split; [reflexivity|]. simpl in E. injection E as E.
  rewrite <- E. reflexivity.
Qed.

(** *** The traversal *)

Lemma depth_node n t s e sp f p js :
  depth (JNode n t s e sp f p (Some js)) = S (forest_depth js).
Proof. reflexivity. Qed.

Lemma forest_depth_cons j js :
  forest_depth (j :: js) = Nat.max (depth j) (forest_depth js).
Proof. reflexivity. Qed.

Lemma skel_lookup H H' i o :
  skel H H' -> H !! i = Some o ->
  exists o', H' !! i = Some o' /\ strip o' = strip o.
Proof.
  intros S Ho. specialize (S i). rewrite Ho in S.
  destruct (H' !! i) as [o'|]; [|discriminate].
  exists o'. split; [reflexivity|]. simpl in S. congruence.
Qed.

Lemma skel_sym H H' : skel H H' -> skel H' H.
Proof. intros S i. symmetry. apply S. Qed.

Lemma strip_nodes o o' : strip o' = strip o -> nodes o' = nodes o.
Proof. intros E. apply (f_equal nodes) in E. exact E. Qed.

Lemma emb_is_Some b s H i : emb b s H -> i < length s -> is_Some (H !! (b + i)).
Proof.
  intros E Hi. destruct (lookup_lt_is_Some_2 s i Hi) as [o Ho].
  specialize (E i o Ho). destruct (H !! (b + i)); [eauto | discriminate].
Qed.

Lemma traverse_leaf n t s e sp f p : traverse_node (JNode n t s e sp f p None).
Proof.
  intros b H fl fuel E Hd. destruct fuel as [|fuel]; [lia|].
  destruct (emb_root _ _ _ E) as (o & Ho & Hn). simpl in Hn.
  cbn [preOrder]. unfold visit. rewrite Ho, Hn. split; reflexivity.
Qed.

Lemma traverse_inner n t s e sp f p js :
  traverse_forest js -> traverse_node (JNode n t s e sp f p (Some js)).
Proof.
  intros IH b H fl fuel E Hd. destruct fuel as [|fuel]; [lia|].
  set (j := JNode n t s e sp f p (Some js)) in *.
  destruct (emb_root _ _ _ E) as (o & Ho & Hn). simpl in Hn.
  cbn [preOrder]. unfold visit at 1. rewrite Ho, Hn. cbn [bind fst].
  set (H1 := annotate (root_loc b j) (kid_locs b js) H).
  assert (skel H H1) as S1 by apply annotate_skel.
  destruct (skel_lookup _ _ _ _ S1 Ho) as (o1 & Ho1 & Hs1).
  rewrite Ho1, (strip_nodes _ _ Hs1), Hn.
  unfold j in E. rewrite seg_node in E. apply emb_app in E as [E _].
  unfold j in Hd. rewrite depth_node in Hd.
  specialize (IH b H1 (fl ++ [root_loc b j]) fuel (emb_skel _ _ _ _ E S1) ltac:(lia)).
  destruct (for_of (preOrder visit fuel) (kid_locs b js) (H1, fl ++ [root_loc b j]))
    as [[H' fl']|err|]; [|exact IH|exact IH].
  destruct IH as (Hc & Hfl & (S2 & Hframe & Hroots) & Hk).
  assert (root_loc b j = b + forest_size js) as Hroot
    by (unfold root_loc, j; rewrite size_node; reflexivity).
  split; [exact Hc|]. split.
  { rewrite Hfl, <- app_assoc. reflexivity. }
  split.
  { split; [eapply skel_trans; eassumption|].
    intros i Hi. unfold j in Hi. rewrite size_node in Hi. simpl pred in Hi.
    rewrite Hframe by lia. apply annotate_other.
    intros Hin. apply kid_locs_range in Hin. lia. }
  intros q oq cs c Hq Hoq Hcs Hin.
  unfold j in Hq. rewrite size_node in Hq.
  destruct (decide (q = b + forest_size js)) as [->|Hne].
  - destruct (skel_lookup _ _ _ _ (skel_sym _ _ (skel_trans _ _ _ S1 S2)) Hoq)
      as (o0 & Ho0 & Hs0).
    rewrite <- Hroot in Ho0. rewrite Ho in Ho0. injection Ho0 as <-.
    apply strip_nodes in Hs0. rewrite Hs0, Hcs in Hn. injection Hn as ->.
    split; [apply kid_locs_range in Hin; lia|].
    rewrite Hroots by exact Hin. rewrite <- Hroot.
    apply annotate_parent; [left; exact Hin|].
    apply kid_locs_range in Hin.
    replace c with (b + (c - b)) by lia.
    eapply emb_is_Some; [exact E|]. rewrite threaded_seg_length. lia.
  - apply (Hk q oq cs c); [lia | assumption..].
Qed.

Lemma traverse_nil : traverse_forest [].
Proof.
  intros b H fl fuel _ _. simpl. split; [reflexivity|].
  split; [rewrite app_nil_r; reflexivity|]. split.
  - split; [apply skel_refl|]. split; reflexivity.
  - intros q oq cs c Hq. unfold forest_size in Hq. simpl in Hq. lia.
Qed.

Lemma traverse_cons j js :
  traverse_node j -> traverse_forest js -> traverse_forest (j :: js).
Proof.
  intros IHj IHjs b H fl fuel E Hd.
  rewrite forest_depth_cons in Hd.
  cbn [threaded] in E. apply emb_app in E as [Ej Ejs].
  rewrite seg_length in Ejs.
  cbn [kid_locs for_of].
  specialize (IHj b H fl fuel Ej ltac:(lia)).
  destruct (preOrder visit fuel (root_loc b j) (H, fl)) as [[H1 fl1]|err|];
    cbn [bind]; [| |exact IHj].
  2:{ destruct IHj as [Hc ->]. split; [simpl; rewrite Hc|]; reflexivity. }
  destruct IHj as (Hc & Hfl & (S1 & Hframe1) & Hk1).
  specialize (IHjs (b + size j) H1 fl1 fuel (emb_skel _ _ _ _ Ejs S1) ltac:(lia)).
  destruct (for_of (preOrder visit fuel) (kid_locs (b + size j) js) (H1, fl1))
    as [[H' fl']|err|]; [| |exact IHjs].
  2:{ destruct IHjs as [Hcs ->].
      split; [simpl; rewrite Hcs; apply andb_false_r | reflexivity]. }
  destruct IHjs as (Hcs & Hfl' & (S2 & Hframe2 & Hroots2) & Hk2).
  pose proof (size_pos j) as Hpos.
  split; [simpl; rewrite Hc; exact Hcs|]. split.
  { rewrite Hfl', Hfl, <- app_assoc. reflexivity. }
  split.
  { split; [eapply skel_trans; eassumption|]. split.
    - intros i Hi. rewrite forest_size_cons in Hi.
      rewrite Hframe2 by lia. apply Hframe1. lia.
    - intros c Hin. apply elem_of_cons in Hin as [->|Hin].
      + unfold root_loc. rewrite Hframe2 by lia. apply Hframe1. lia.
      + rewrite Hroots2 by exact Hin. apply kid_locs_range in Hin.
        apply Hframe1. lia. }
  intros q oq cs c Hq Hoq Hcs' Hin. rewrite forest_size_cons in Hq.
  destruct (decide (q < b + size j)) as [Hlt|Hge].
  - destruct (skel_lookup _ _ _ _ (skel_sym _ _ S2) Hoq) as (o1 & Ho1 & Hs1).
    apply strip_nodes in Hs1. rewrite Hcs' in Hs1.
    destruct (Hk1 q o1 cs c ltac:(lia) Ho1 Hs1 Hin) as [Hr Hp].
    split; [exact Hr|]. rewrite Hframe2 by lia. exact Hp.
  - destruct (Hk2 q oq cs c ltac:(lia) Hoq Hcs' Hin) as [Hr Hp].
    split; [lia | exact Hp].
Qed.

Lemma traverse_all : (forall j, traverse_node j) /\ (forall js, traverse_forest js).
Proof.
  apply json_both_ind.
  - apply traverse_leaf.
  - apply traverse_inner.
  - apply traverse_nil.
  - apply traverse_cons.
Qed.

(** *** The pre-order listing *)

Lemma pre_length :
  (forall j b, length (pre b j) = size j) /\
  (forall js b, length (threaded pre b js) = forest_size js).
Proof.
  apply json_both_ind.
  - reflexivity.
  - intros n t s e sp f p js IH b. cbn [pre]. rewrite size_node.
    cbn [length]. rewrite IH. reflexivity.
  - reflexivity.
  - intros j js IHj IHjs b. cbn [threaded].
    rewrite length_app, IHj, IHjs. reflexivity.
Qed.

Lemma pre_range :
  (forall j b l, l ∈ pre b j <-> b <= l < b + size j) /\
  (forall js b l, l ∈ threaded pre b js <-> b <= l < b + forest_size js).
Proof.
  apply json_both_ind.
  - intros n t s e sp f p b l. cbn [pre]. unfold root_loc. simpl size.
    rewrite list_elem_of_singleton. simpl. lia.
  - intros n t s e sp f p js IH b l. cbn [pre]. unfold root_loc.
    rewrite size_node, elem_of_cons, IH. simpl. lia.
  - intros b l. simpl. rewrite elem_of_nil. unfold forest_size. simpl. lia.
  - intros j js IHj IHjs b l. cbn [threaded].
    rewrite elem_of_app, IHj, IHjs, forest_size_cons.
    pose proof (size_pos j). lia.
Qed.

Lemma pre_NoDup :
  (forall j b, NoDup (pre b j)) /\ (forall js b, NoDup (threaded pre b js)).
Proof.
  apply json_both_ind.
  - intros n t s e sp f p b. cbn [pre]. apply NoDup_singleton.
  - intros n t s e sp f p js IH b. cbn [pre]. constructor; [|apply IH].
    rewrite (proj2 pre_range). unfold root_loc. rewrite size_node. simpl. lia.
  - intros b. constructor.
  - intros j js IHj IHjs b. cbn [threaded]. apply NoDup_app.
    split; [apply IHj|]. split; [|apply IHjs].
    intros l Hl Hl'. apply (proj1 pre_range) in Hl.
    apply (proj2 pre_range) in Hl'. lia.
Qed.

Lemma kid_locs_pre js : forall b l, l ∈ kid_locs b js -> l ∈ threaded pre b js.
Proof.
  induction js as [|j js IH]; intros b l Hl; simpl in Hl; [inversion Hl|].
  cbn [threaded]. apply elem_of_app. apply elem_of_cons in Hl as [->|Hl].
  - left. destruct j as [n t s e sp f p cs]. cbn [pre]. apply list_elem_of_here.
  - right. apply IH, Hl.
Qed.

Lemma depth_le_size :
  (forall j, depth j <= size j) /\ (forall js, forest_depth js <= forest_size js).
Proof.
  apply json_both_ind.
  - intros. simpl. lia.
  - intros n t s e sp f p js IH. rewrite depth_node, size_node. lia.
  - reflexivity.
  - intros j js IHj IHjs. rewrite forest_depth_cons, forest_size_cons. lia.
Qed.

Lemma before_app_l {A} (x y : A) l1 l2 : before x y l1 -> before x y (l1 ++ l2).
Proof.
  intros (i & k & Hi & Hk & Hlt). exists i, k.
  rewrite !lookup_app_l by (eapply lookup_lt_Some; eauto). auto.
Qed.

Lemma before_app_r {A} (x y : A) l1 l2 : before x y l2 -> before x y (l1 ++ l2).
Proof.
  intros (i & k & Hi & Hk & Hlt). exists (length l1 + i), (length l1 + k).
  rewrite !lookup_app_r by lia.
  replace (length l1 + i - length l1) with i by lia.
  replace (length l1 + k - length l1) with k by lia.
  split; [exact Hi|]. split; [exact Hk|lia].
Qed.

Lemma before_app_lr {A} (x y : A) l1 l2 : x ∈ l1 -> y ∈ l2 -> before x y (l1 ++ l2).
Proof.
  intros Hx Hy. apply list_elem_of_lookup in Hx as [i Hi].
  apply list_elem_of_lookup in Hy as [k Hk].
  exists i, (length l1 + k). pose proof (lookup_lt_Some _ _ _ Hi).
  rewrite lookup_app_l by lia. rewrite lookup_app_r by lia.
  replace (length l1 + k - length l1) with k by lia.
  split; [exact Hi|]. split; [exact Hk|lia].
Qed.

Lemma before_cons {A} (x y a : A) l : before x y l -> before x y (a :: l).
Proof. apply (before_app_r x y [a] l). Qed.

Lemma before_head {A} (x y : A) l : y ∈ l -> before x y (x :: l).
Proof. intros Hy. apply (before_app_lr x y [x] l); [apply list_elem_of_here | exact Hy]. Qed.

Lemma before_cons_inv {A} (x y a : A) l :
  before x y (a :: l) -> (x = a /\ y ∈ l) \/ before x y l.
Proof.
  intros (i & k & Hi & Hk & Hlt). destruct k as [|k]; [lia|]. simpl in Hk.
  destruct i as [|i].
  - left. simpl in Hi. injection Hi as ->. split; [reflexivity|].
    apply list_elem_of_lookup. eauto.
  - right. exists i, k. simpl in Hi. split; [exact Hi|]. split; [exact Hk|lia].
Qed.

Lemma before_trans {A} (x y z : A) l :
  NoDup l -> before x y l -> before y z l -> before x z l.
Proof.
  intros ND (i & k & Hi & Hk & Hlt) (k' & m & Hk' & Hm & Hlt').
  assert (k = k') as <- by (eapply NoDup_lookup; eauto).
  exists i, m. split; [exact Hi|]. split; [exact Hm|lia].
Qed.

Lemma emb_root_strip b j H :
  emb b (seg b j) H ->
  exists o, H !! root_loc b j = Some o /\ strip o = obj b j.
Proof.
  intros E. specialize (E (pred (size j)) (obj b j)).
  assert (seg b j !! pred (size j) = Some (obj b j)) as Hs.
  { destruct j as [n t s e sp f p [js|]].
    - rewrite seg_node, size_node. simpl pred.
      rewrite lookup_app_r; rewrite threaded_seg_length; [|lia].
      rewrite Nat.sub_diag. reflexivity.
    - reflexivity. }
  specialize (E Hs). unfold root_loc.
  destruct (H !! (b + pred (size j))) as [o|]; [|discriminate].
  exists o. split; [reflexivity|]. simpl in E. congruence.
Qed.

Lemma strip_eq_nodes o o' : strip o = o' -> nodes o = nodes o'.
Proof. intros <-. reflexivity. Qed.

Lemma kid_locs_before js : forall b x y,
  before x y (kid_locs b js) -> before x y (threaded pre b js).
Proof.
  induction js as [|j js IH]; intros b x y Hb.
  - destruct Hb as (i & k & Hi & _). discriminate.
  - cbn [kid_locs] in Hb. cbn [threaded].
    apply before_cons_inv in Hb as [[-> Hy]|Hb].
    + apply before_app_lr; [|apply kid_locs_pre, Hy].
      destruct j as [n t s e sp f p cs]. cbn [pre]. apply list_elem_of_here.
    + apply before_app_r, IH, Hb.
Qed.

Lemma ordered_all : (forall j, ordered_node j) /\ (forall js, ordered_forest js).
Proof.
  apply json_both_ind.
  - intros n t s e sp f p b H q o cs E Hq Ho Hcs.
    destruct (emb_root_strip _ _ _ E) as (o' & Ho' & Hs).
    unfold root_loc in Ho'. simpl size in *. simpl pred in Ho'.
    replace q with (b + 0) in Ho by lia. rewrite Ho in Ho'. injection Ho' as <-.
    apply strip_eq_nodes in Hs. simpl in Hs. congruence.
  - intros n t s e sp f p js IH b H q o cs E Hq Ho Hcs.
    set (j := JNode n t s e sp f p (Some js)) in *.
    assert (root_loc b j = b + forest_size js) as Hroot
      by (unfold root_loc, j; rewrite size_node; reflexivity).
    unfold j in Hq. rewrite size_node in Hq.
    change (pre b j) with (root_loc b j :: threaded pre b js).
    destruct (decide (q = b + forest_size js)) as [->|Hne].
    + destruct (emb_root_strip _ _ _ E) as (o' & Ho' & Hs).
      rewrite Hroot, Ho in Ho'. injection Ho' as <-.
      apply strip_eq_nodes in Hs. simpl in Hs. rewrite Hcs in Hs. injection Hs as ->.
      rewrite Hroot. split.
      * intros c Hc. apply before_head, kid_locs_pre, Hc.
      * intros x y Hb. apply before_cons, kid_locs_before, Hb.
    + unfold j in E. rewrite seg_node in E. apply emb_app in E as [E _].
      destruct (IH b H q o cs E ltac:(lia) Ho Hcs) as [I1 I2].
      split; intros; apply before_cons; auto.
  - intros b H q o cs _ Hq. unfold forest_size in Hq. simpl in Hq. lia.
  - intros j js IHj IHjs b H q o cs E Hq Ho Hcs.
    cbn [threaded] in *. apply emb_app in E as [Ej Ejs].
    rewrite seg_length in Ejs. rewrite forest_size_cons in Hq.
    destruct (decide (q < b + size j)) as [Hlt|Hge].
    + destruct (IHj b H q o cs Ej ltac:(lia) Ho Hcs) as [I1 I2].
      split; intros; apply before_app_l; auto.
    + destruct (IHjs (b + size j) H q o cs Ejs ltac:(lia) Ho Hcs) as [I1 I2].
      split; intros; apply before_app_r; auto.
Qed.

(** *** Records and parents *)

Lemma node_label_strip o : node_label (strip o) = node_label o.
Proof. reflexivity. Qed.

Lemma labels_all :
  (forall j b H, emb b (seg b j) H -> Forall2 (labelled H) (pre b j) (preorder j)) /\
  (forall js b H, emb b (threaded seg b js) H ->
     Forall2 (labelled H) (threaded pre b js) (flat_map preorder js)).
Proof.
  apply json_both_ind.
  - intros n t s e sp f p b H E. cbn [pre preorder].
    constructor; [|constructor].
    destruct (emb_root_strip _ _ _ E) as (o & Ho & Hs).
    unfold labelled. rewrite Ho. simpl. f_equal.
    rewrite <- node_label_strip, Hs. reflexivity.
  - intros n t s e sp f p js IH b H E. cbn [pre preorder].
    constructor.
    + destruct (emb_root_strip _ _ _ E) as (o & Ho & Hs).
      unfold labelled. rewrite Ho. simpl. f_equal.
      rewrite <- node_label_strip, Hs. reflexivity.
    + rewrite seg_node in E. apply emb_app in E as [E _]. apply IH, E.
  - intros b H _. constructor.
  - intros j js IHj IHjs b H E. cbn [threaded flat_map].
    apply emb_app in E as [Ej Ejs]. rewrite seg_length in Ejs.
    apply Forall2_app; [apply IHj, Ej | apply IHjs, Ejs].
Qed.

Lemma has_parent :
  (forall j b H, emb b (seg b j) H ->
     forall l, b <= l < root_loc b j ->
       exists p, b <= p < b + size j /\ child_of H p l) /\
  (forall js b H, emb b (threaded seg b js) H ->
     forall l, b <= l < b + forest_size js ->
       l ∈ kid_locs b js \/
       exists p, b <= p < b + forest_size js /\ child_of H p l).
Proof.
  apply json_both_ind.
  - intros n t s e sp f p b H E l Hl. unfold root_loc in Hl. simpl in Hl. lia.
  - intros n t s e sp f p js IH b H E l Hl.
    set (j := JNode n t s e sp f p (Some js)) in *.
    assert (root_loc b j = b + forest_size js) as Hroot
      by (unfold root_loc, j; rewrite size_node; reflexivity).
    destruct (emb_root_strip _ _ _ E) as (o & Ho & Hs).
    apply strip_eq_nodes in Hs. simpl in Hs.
    unfold j in E. rewrite seg_node in E. apply emb_app in E as [E _].
    unfold j. rewrite size_node.
    destruct (IH b H E l ltac:(lia)) as [Hin|(q & Hq & Hc)].
    + exists (root_loc b j). split; [lia|]. exists o, (kid_locs b js). auto.
    + exists q. split; [lia | exact Hc].
  - intros b H _ l Hl. unfold forest_size in Hl. simpl in Hl. lia.
  - intros j js IHj IHjs b H E l Hl. cbn [threaded kid_locs] in *.
    apply emb_app in E as [Ej Ejs]. rewrite seg_length in Ejs.
    rewrite forest_size_cons in *. pose proof (size_pos j).
    destruct (decide (l < b + size j)) as [Hlt|Hge].
    + destruct (decide (l = root_loc b j)) as [->|Hne].
      * left. apply list_elem_of_here.
      * right. destruct (IHj b H Ej l) as (q & Hq & Hc).
        { unfold root_loc in *. lia. }
        exists q. split; [lia | exact Hc].
    + destruct (IHjs (b + size j) H Ejs l ltac:(lia)) as [Hin|(q & Hq & Hc)].
      * left. apply list_elem_of_further, Hin.
      * right. exists q. split; [lia | exact Hc].
Qed.

Lemma threaded_seg_obj b js o :
  o ∈ threaded seg b js -> exists b' j', o = obj b' j'.
Proof.
  rewrite threaded_seg. intros Ho. apply list_elem_of_fmap in Ho as ([b' j'] & -> & _).
  eauto.
Qed.

Lemma strip_obj b j : strip (obj b j) = obj b j.
Proof. destruct j. reflexivity. Qed.

Lemma obj_nodes_NoDup b j cs : nodes (obj b j) = Some cs -> NoDup cs.
Proof.
  destruct j as [n t s e sp f p [js|]]; simpl; [|discriminate].
  intros [= <-]. apply kid_locs_NoDup.
Qed.

Lemma emb_lookup b s H p o :
  emb b s H -> b <= p < b + length s -> H !! p = Some o ->
  s !! (p - b) = Some (strip o).
Proof.
  intros E Hp Ho. destruct (lookup_lt_is_Some_2 s (p - b) ltac:(lia)) as [o0 Ho0].
  specialize (E _ _ Ho0). replace (b + (p - b)) with p in E by lia.
  rewrite Ho in E. simpl in E. congruence.
Qed.

Lemma nodes_NoDup b js H p o cs :
  emb b (threaded seg b js) H -> b <= p < b + forest_size js ->
  H !! p = Some o -> nodes o = Some cs -> NoDup cs.
Proof.
  intros E Hp Ho Hcs. rewrite <- (threaded_seg_length b js) in Hp.
  pose proof (emb_lookup _ _ _ _ _ E Hp Ho) as Hs.
  apply list_elem_of_lookup_2 in Hs. apply threaded_seg_obj in Hs as (b' & j' & Hs).
  apply (obj_nodes_NoDup b' j'). rewrite <- Hs. exact Hcs.
Qed.

Lemma emb_initial h0 b js :
  b = length h0 -> emb b (threaded seg b js) (h0 ++ threaded seg b js).
Proof.
  intros -> i o Hi. rewrite lookup_app_r by lia.
  replace (length h0 + i - length h0) with i by lia. rewrite Hi. simpl.
  apply list_elem_of_lookup_2, threaded_seg_obj in Hi as (b' & j' & ->).
  rewrite strip_obj. reflexivity.
Qed.

Lemma initial_parent h0 js l o :
  (h0 ++ threaded seg (length h0) js) !! l = Some o -> length h0 <= l ->
  parent o = None.
Proof.
  intros Ho Hl. rewrite lookup_app_r in Ho by lia.
  apply list_elem_of_lookup_2, threaded_seg_obj in Ho as (b' & j' & ->).
  destruct j'. reflexivity.
Qed.

(** What a call of [fromJSON] does, by outcome. *)
Lemma fromJSON_run input h0 :
  match fromJSON input h0 with
  | Ok (out, H') =>
      forest_complete input = true /\
      nested out = kid_locs (length h0) input /\
      flat out = threaded pre (length h0) input /\
      postL (length h0) input (h0 ++ threaded seg (length h0) input) H' /\
      kids_ok (length h0) (forest_size input) H'
  | Throw e => forest_complete input = false /\ e = not_iterable
  | OutOfFuel => False
  end.
Proof.
  unfold fromJSON, JSON_parse. rewrite (proj2 alloc_layout).
  set (b := length h0). set (h := h0 ++ threaded seg b input).
  pose proof (proj2 traverse_all input b h [] (S (length h))
                (emb_initial h0 b input eq_refl)) as T.
  assert (forest_depth input < S (length h)) as Hd.
  { unfold h. rewrite length_app, threaded_seg_length.
    pose proof (proj2 depth_le_size input). lia. }
  specialize (T Hd).
  destruct (for_of (preOrder visit (S (length h))) (kid_locs b input) (h, []))
    as [[H' fl']|e|]; cbn [bind]; [|exact T|exact T].
  destruct T as (Hc & Hfl & Hpost & Hk). simpl. auto.
Qed.

(** *** What [fromJSON] builds *)

Lemma descendant_before b js H :
  emb b (threaded seg b js) H -> kids_ok b (forest_size js) H ->
  forall p d, descendant H p d -> b <= p < b + forest_size js ->
    before p d (threaded pre b js).
Proof.
  intros E K. pose proof (proj2 pre_NoDup js b) as ND.
  assert (forall p c, child_of H p c -> b <= p < b + forest_size js ->
            before p c (threaded pre b js) /\ b <= c < p) as Hchild.
  { intros p c (o & cs & Ho & Hcs & Hin) Hp.
    destruct (proj2 ordered_all js b H p o cs E Hp Ho Hcs) as [Hb _].
    split; [apply Hb, Hin|]. apply (K p o cs c Hp Ho Hcs Hin). }
  induction 1 as [p c Hc|p c d Hc _ IH]; intros Hp.
  - apply Hchild; assumption.
  - destruct (Hchild p c Hc Hp) as [Hb Hr].
    eapply before_trans; [exact ND | exact Hb | apply IH; lia].
Qed.

(** The built store still holds the parsed forest. *)
Lemma fromJSON_emb input h0 H' :
  postL (length h0) input (h0 ++ threaded seg (length h0) input) H' ->
  emb (length h0) (threaded seg (length h0) input) H'.
Proof.
  intros (S & _ & _). eapply emb_skel; [|exact S]. apply emb_initial. reflexivity.
Qed.

(** C6.  On a forest whose records all carry [nodes], [fromJSON] returns,
    and the flat list it built has as many entries as the forest has
    nodes, starts with the first root, lists every object once, carries
    the records of the forest in pre-order, and puts every node before
    each of its descendants (so after each of its ancestors) and after its
    earlier siblings, roots included. *)
Theorem fromJSON_flat_is_preorder (input : list JsonNode) (h0 : heap) :
  forest_complete input = true ->
  exists out H',
    fromJSON input h0 = Ok (out, H') /\
    length (flat out) = forest_size input /\
    head (flat out) = head (nested out) /\
    NoDup (flat out) /\
    Forall2 (labelled H') (flat out) (flat_map preorder input) /\
    (forall p d, p ∈ flat out -> descendant H' p d -> before p d (flat out)) /\
    (forall p o cs x y, p ∈ flat out -> H' !! p = Some o -> nodes o = Some cs ->
       before x y cs -> before x y (flat out)) /\
    (forall x y, before x y (nested out) -> before x y (flat out)).
Proof.
  intros Hc. pose proof (fromJSON_run input h0) as R.
  destruct (fromJSON input h0) as [[out H']|e|];
    [|destruct R; congruence|contradiction].
  destruct R as (_ & Hn & Hf & Hpost & Hk).
  pose proof (fromJSON_emb _ _ _ Hpost) as E.
  exists out, H'. split; [reflexivity|]. rewrite Hf, Hn.
  split; [apply pre_length|].
  split.
  { destruct input as [|[n t s e sp f p cs] js]; reflexivity. }
  split; [apply pre_NoDup|].
  split; [apply labels_all, E|].
  split.
  { intros p d Hp Hd. apply (proj2 pre_range) in Hp.
    eapply descendant_before; eassumption. }
  split.
  { intros p o cs x y Hp Ho Hcs Hb. apply (proj2 pre_range) in Hp.
    apply (proj2 ordered_all input _ H' p o cs E Hp Ho Hcs), Hb. }
  intros x y Hb. apply kid_locs_before, Hb.
Qed.

Lemma fromJSON_flat_is_preorder_witness :
  exists out H',
    fromJSON completeForest [] = Ok (out, H') /\ length (flat out) = 6.
Proof.
  destruct (fromJSON_flat_is_preorder completeForest [] eq_refl)
    as (out & H' & Hrun & Hlen & _).
  exists out, H'. split; [exact Hrun | exact Hlen].
Defined.

Lemma descendant_range b n H :
  kids_ok b n H ->
  forall p d, descendant H p d -> b <= p < b + n -> b <= d < p.
Proof.
  intros K. induction 1 as [p c (o & cs & Ho & Hcs & Hin)
                           |p c d (o & cs & Ho & Hcs & Hin) _ IH]; intros Hp.
  - apply (K p o cs c Hp Ho Hcs Hin).
  - pose proof (proj1 (K p o cs c Hp Ho Hcs Hin)). specialize (IH ltac:(lia)). lia.
Qed.

Lemma descendant_snoc H r p l :
  descendant H r p -> child_of H p l -> descendant H r l.
Proof.
  induction 1 as [p c Hc|p c d Hc _ IH]; intros Hl.
  - eapply desc_step; [exact Hc | apply desc_child, Hl].
  - eapply desc_step; [exact Hc | apply IH, Hl].
Qed.

Lemma in_range_reachable b js H :
  emb b (threaded seg b js) H -> kids_ok b (forest_size js) H ->
  forall k l, b + forest_size js - l <= k -> b <= l < b + forest_size js ->
    Whole.reachable H (kid_locs b js) l.
Proof.
  intros E K. induction k as [|k IH]; intros l Hk Hl; [lia|].
  destruct (proj2 has_parent js b H E l Hl) as [Hin|(p & Hp & Hc)].
  - left. exact Hin.
  - right. destruct Hc as (o & cs & Ho & Hcs & Hin).
    pose proof (proj1 (K p o cs l Hp Ho Hcs Hin)) as Hlt.
    assert (child_of H p l) as Hc by (exists o, cs; auto).
    destruct (IH p ltac:(lia) Hp) as [Hroot|(r & Hr & Hd)].
    + exists p. split; [exact Hroot | apply desc_child, Hc].
    + exists r. split; [exact Hr | eapply descendant_snoc; eassumption].
Qed.

(** The objects a forest is laid out as stand for its records. *)
Lemma represents_all :
  (forall j b H, emb b (seg b j) H -> represents H (root_loc b j) j) /\
  (forall js b H, emb b (threaded seg b js) H ->
     Forall2 (represents H) (kid_locs b js) js).
Proof.
  apply json_both_ind.
  - intros n t s e sp f p b H E.
    destruct (emb_root_strip _ _ _ E) as (o & Ho & Hs).
    apply (represents_record H _ o); [exact Ho | |].
    + rewrite <- node_label_strip, Hs. reflexivity.
    + rewrite (strip_eq_nodes _ _ Hs). constructor.
  - intros n t s e sp f p js IH b H E.
    destruct (emb_root_strip _ _ _ E) as (o & Ho & Hs).
    apply (represents_record H _ o); [exact Ho | |].
    + rewrite <- node_label_strip, Hs. reflexivity.
    + rewrite (strip_eq_nodes _ _ Hs). cbn [obj nodes]. constructor.
      apply IH. rewrite seg_node in E. apply emb_app in E as [E _]. exact E.
  - intros b H _. constructor.
  - intros j js IHj IHjs b H E. cbn [threaded kid_locs] in *.
    apply emb_app in E as [Ej Ejs]. rewrite seg_length in Ejs.
    constructor; [apply IHj, Ej | apply IHjs, Ejs].
Qed.

(** C7.  On a forest whose records all carry [nodes], [fromJSON] returns
    roots that stand for the records of the forest, children included, and
    the flat list holds exactly the nodes at or below these roots.  Among
    these nodes, every child of a node has that very node as [parent], no
    root has a [parent], and every node that is not a root occurs exactly
    once in the [nodes] of its [parent], which is itself one of them. *)
Theorem fromJSON_links_parents (input : list JsonNode) (h0 : heap) :
  forest_complete input = true ->
  exists out H',
    fromJSON input h0 = Ok (out, H') /\
    Forall2 (represents H') (nested out) input /\
    (forall l, l ∈ flat out <-> Whole.reachable H' (nested out) l) /\
    (forall p c, Whole.reachable H' (nested out) p -> child_of H' p c ->
       parent <$> H' !! c = Some (Some p)) /\
    (forall r, r ∈ nested out -> parent <$> H' !! r = Some None) /\
    (forall l, Whole.reachable H' (nested out) l -> l ∉ nested out ->
       exists p o cs,
         parent <$> H' !! l = Some (Some p) /\
         Whole.reachable H' (nested out) p /\
         H' !! p = Some o /\ nodes o = Some cs /\
         count_occ Nat.eq_dec cs l = 1).
Proof.
  intros Hc. pose proof (fromJSON_run input h0) as R.
  destruct (fromJSON input h0) as [[out H']|e|];
    [|destruct R; congruence|contradiction].
  destruct R as (_ & Hn & Hf & Hpost & Hk).
  pose proof (fromJSON_emb _ _ _ Hpost) as E.
  destruct Hpost as (S & Hframe & Hroots).
  assert (forall l, Whole.reachable H' (kid_locs (length h0) input) l <->
                    length h0 <= l < length h0 + forest_size input) as Hreach.
  { intros l. split.
    - intros [Hroot|(r & Hr & Hd)].
      + apply kid_locs_range, Hroot.
      + apply kid_locs_range in Hr.
        pose proof (descendant_range _ _ _ Hk r l Hd Hr). lia.
    - intros Hl. eapply in_range_reachable; try eassumption. reflexivity. }
  exists out, H'. split; [reflexivity|]. rewrite Hf, Hn.
  split; [apply represents_all, E|].
  split.
  { intros l. rewrite Hreach. apply pre_range. }
  split.
  { intros p c Hp (o & cs & Ho & Hcs & Hin). apply Hreach in Hp.
    apply (Hk p o cs c Hp Ho Hcs Hin). }
  split.
  { intros r Hr. rewrite (Hroots r Hr). apply kid_locs_range in Hr.
    destruct (emb_is_Some _ _ _ (r - length h0)
                (emb_initial h0 _ input eq_refl)
                ltac:(rewrite threaded_seg_length; lia)) as [o Ho].
    replace (length h0 + (r - length h0)) with r in Ho by lia.
    rewrite Ho. simpl. f_equal. eapply initial_parent; [exact Ho | lia]. }
  intros l Hl Hnr. apply Hreach in Hl.
  destruct (proj2 has_parent input _ H' E l Hl) as [Hin|(p & Hp & Hchild)];
    [contradiction|].
  destruct Hchild as (o & cs & Ho & Hcs & Hin).
  exists p, o, cs. split; [apply (Hk p o cs l Hp Ho Hcs Hin)|].
  split; [apply Hreach, Hp|]. split; [exact Ho|]. split; [exact Hcs|].
  apply NoDup_count_occ'.
  - apply NoDup_ListNoDup. eapply nodes_NoDup; eassumption.
  - apply list_elem_of_In, Hin.
Qed.

Lemma fromJSON_links_parents_witness :
  exists out H',
    fromJSON completeForest [] = Ok (out, H') /\
    Forall2 (represents H') (nested out) completeForest /\
    forall r, r ∈ nested out -> parent <$> H' !! r = Some None.
Proof.
  destruct (fromJSON_links_parents completeForest [] eq_refl)
    as (out & H' & Hrun & Hrep & _ & _ & Hroots & _).
  exists out, H'. split; [exact Hrun|]. split; [exact Hrep | exact Hroots].
Defined.

(** The builder returns exactly on the forests whose records all carry
    [nodes]; on every other forest it throws the [TypeError] of iterating
    [undefined]; it never exhausts the budget of the model. *)
Lemma fromJSON_outcome (input : list JsonNode) (h0 : heap) :
  (forest_complete input = true <->
   exists out H', fromJSON input h0 = Ok (out, H')) /\
  (forest_complete input = false <-> fromJSON input h0 = Throw not_iterable).
Proof.
  pose proof (fromJSON_run input h0) as R.
  destruct (fromJSON input h0) as [[out H']|e|]; [| |contradiction].
  - destruct R as (Hc & _). rewrite Hc. split; split; try discriminate; eauto.
  - destruct R as [Hc ->]. rewrite Hc. split; split; try discriminate; eauto.
    intros (out & H' & He). discriminate.
Qed.

(** C2.  The builder throws on the fixture of its own unit test, whose
    leaf records have no [nodes] member, and on a single such record:
    [preOrder] guards the missing member, the callback iterates it. *)
Theorem sample_fixture_throws :
  fromJSON sampleOutput [] = Throw not_iterable /\
  fromJSON loneLeaf [] = Throw not_iterable.
Proof. split; vm_compute; reflexivity. Qed.

(** The model at work on a forest of six records: addresses follow the
    order of allocation, [flat] the order of the traversal. *)
Example fromJSON_completeForest :
  match fromJSON completeForest [] with
  | Ok (out, H) =>
      nested out = [4; 5] /\ flat out = [4; 2; 0; 1; 3; 5] /\
      (parent <$> H) = [Some 2; Some 2; Some 4; Some 4; None; None]
  | _ => False
  end.
Proof. vm_compute. repeat split. Qed.

(* ================================================================= *)
(** ** The framework-not-found diagnostic *)

Open Scope Z_scope.

Lemma occurs_at_0 needle s : occurs_at needle s 0 <-> String.prefix needle s = true.
Proof. unfold occurs_at. symmetry. apply prefix_correct. Qed.

Lemma occurs_at_empty needle k : occurs_at needle EmptyString k -> needle = EmptyString.
Proof.
  unfold occurs_at. intros H. rewrite <- H.
  destruct k, (String.length needle); reflexivity.
Qed.

Lemma indexOf_from_unfold needle s i :
  indexOf_from needle s i =
  if String.prefix needle s then i
  else match s with
       | EmptyString => -1
       | String _ s' => indexOf_from needle s' (i + 1)
       end.
Proof. destruct s; reflexivity. Qed.

(** [indexOf] answers the least index of an occurrence, or [-1]. *)
Lemma indexOf_from_spec needle s : forall i,
  0 <= i ->
  (indexOf_from needle s i = -1 /\ forall k, ~ occurs_at needle s k) \/
  (exists k, indexOf_from needle s i = i + Z.of_nat k /\ occurs_at needle s k /\
             forall k', (k' < k)%nat -> ~ occurs_at needle s k').
Proof.
  induction s as [|c s IH]; intros i Hi; rewrite indexOf_from_unfold.
  - destruct (String.prefix needle EmptyString) eqn:Hp.
    + right. exists O. split; [lia|]. split; [apply occurs_at_0, Hp|]. intros; lia.
    + left. split; [reflexivity|]. intros k Hk.
      apply occurs_at_empty in Hk. subst needle. discriminate.
  - destruct (String.prefix needle (String c s)) eqn:Hp.
    + right. exists O. split; [lia|]. split; [apply occurs_at_0, Hp|]. intros; lia.
    + destruct (IH (i + 1) ltac:(lia)) as [[Hr Hno]|(k & Hr & Hk & Hmin)].
      * left. split; [exact Hr|]. intros [|k] Hk.
        -- apply occurs_at_0 in Hk. congruence.
        -- apply (Hno k), Hk.
      * right. exists (S k). split; [lia|]. split; [exact Hk|].
        intros [|k'] Hlt Hocc.
        -- apply occurs_at_0 in Hocc. congruence.
        -- apply (Hmin k'); [lia | exact Hocc].
Qed.

(** C9.  A message that begins with the diagnostic, in particular the
    diagnostic itself, is not recognised; a message is recognised exactly
    when the first occurrence of the diagnostic in it is at a strictly
    positive index. *)
Theorem diagnostic_at_start_not_recognised :
  (forall err, occurs_at ginkgoImportsNotFoundError (message err) 0 ->
     isGinkgoImportsNotFoundError err = false) /\
  isGinkgoImportsNotFoundError (mkError ginkgoImportsNotFoundError) = false /\
  (forall err, isGinkgoImportsNotFoundError err = true <->
     exists k, (0 < k)%nat /\
       occurs_at ginkgoImportsNotFoundError (message err) k /\
       forall k', (k' < k)%nat ->
         ~ occurs_at ginkgoImportsNotFoundError (message err) k').
Proof.
  assert (forall err, occurs_at ginkgoImportsNotFoundError (message err) 0 ->
     isGinkgoImportsNotFoundError err = false) as H0.
  { intros err H. apply occurs_at_0 in H. unfold isGinkgoImportsNotFoundError.
    destruct (truthy_string (message err)); [|reflexivity]. simpl.
    unfold indexOf. rewrite indexOf_from_unfold, H. reflexivity. }
  split; [exact H0|]. split; [apply H0; reflexivity|].
  intros err. unfold isGinkgoImportsNotFoundError, indexOf.
  destruct (indexOf_from_spec ginkgoImportsNotFoundError (message err) 0 ltac:(lia))
    as [[Hr Hno]|(k & Hr & Hk & Hmin)].
  - rewrite Hr. split.
    + destruct (truthy_string (message err)); discriminate.
    + intros (k & _ & Hk & _). exfalso. apply (Hno k), Hk.
  - rewrite Hr. split.
    + intros H. exists k.
      destruct (truthy_string (message err)); [|discriminate]. simpl in H.
      apply Z.ltb_lt in H. split; [lia|]. auto.
    + intros (k2 & Hpos & Hk2 & Hmin2).
      assert (k = k2) as <-.
      { destruct (Nat.lt_trichotomy k k2) as [Hlt|[Heq|Hgt]]; [|exact Heq|].
        - exfalso. apply (Hmin2 k Hlt), Hk.
        - exfalso. apply (Hmin k2 Hgt), Hk2. }
      assert (truthy_string (message err) = true) as ->.
      { destruct (message err); [|reflexivity].
        apply occurs_at_empty in Hk. discriminate. }
      simpl. apply Z.ltb_lt. lia.
Qed.

Lemma diagnostic_at_start_not_recognised_witness :
  isGinkgoImportsNotFoundError
    (mkError (ginkgoImportsNotFoundError ++ " (suite_test.go)")) = false.
Proof.
  apply (proj1 diagnostic_at_start_not_recognised). reflexivity.
Defined.

(* ================================================================= *)
(** ** The tree data provider *)

(** C8.  A change to an editor without a view column leaves the whole
    provider as it was and fires nothing; every other change, to no
    editor included, binds the new editor, empties the cache and fires
    one refresh. *)
Theorem editor_change_frame :
  (forall w ed, viewColumn ed = None -> onActiveEditorChanged (Some ed) w = w) /\
  (forall w e, (forall ed, e = Some ed -> viewColumn ed <> None) ->
     let w' := onActiveEditorChanged e w in
     editor (this w') = e /\ roots (this w') = [] /\
     effects w' = effects w ++ [Fire]).
Proof.
  split.
  - intros w ed Hv. unfold onActiveEditorChanged, isMainEditor. rewrite Hv. reflexivity.
  - intros w e He. destruct e as [ed|]; simpl.
    + unfold isMainEditor. destruct (viewColumn ed) eqn:Hv.
      * simpl. auto.
      * exfalso. apply (He ed eq_refl Hv).
    + auto.
Qed.

Lemma editor_change_frame_witness :
  onActiveEditorChanged (Some outputPane) typingWorld = typingWorld.
Proof. apply (proj1 editor_change_frame). reflexivity. Defined.

(** *** The cache *)

Lemma parserCalls_app es es' : parserCalls (es ++ es') = (parserCalls es + parserCalls es')%nat.
Proof. unfold parserCalls. rewrite List.filter_app, length_app. reflexivity. Qed.

Lemma errorMessages_app es es' :
  errorMessages (es ++ es') = (errorMessages es + errorMessages es')%nat.
Proof. unfold errorMessages. rewrite List.filter_app, length_app. reflexivity. Qed.

(** A request on an empty cache goes to the parser, whatever it answers. *)
Lemma getChildren_fetches f el w ed :
  editor (this w) = Some ed ->
  languageId (document ed) = "go"%string ->
  roots (this w) = [] ->
  parserCalls (effects (getChildren f el w).1) = S (parserCalls (effects w)).
Proof.
  intros He Hl Hr. unfold getChildren. rewrite He, Hl, Hr. simpl.
  destruct (f (document ed)); destruct el; simpl;
    rewrite ?parserCalls_app; unfold parserCalls; simpl; lia.
Qed.

(** A fetch that resolves with no roots leaves the provider as it was. *)
Lemma getChildren_empty f el w ed out :
  editor (this w) = Some ed ->
  languageId (document ed) = "go"%string ->
  roots (this w) = [] ->
  f (document ed) = Resolved out ->
  nested out = [] ->
  this (getChildren f el w).1 = this w.
Proof.
  intros He Hl Hr Hf Hn. unfold getChildren. rewrite He, Hl, Hr, Hf, Hn. simpl.
  destruct el; simpl; rewrite <- Hr; destruct (this w); reflexivity.
Qed.

(** So does any number of requests, and each of them calls the parser. *)
Lemma requests_empty f ed out els : forall w,
  editor (this w) = Some ed ->
  languageId (document ed) = "go"%string ->
  roots (this w) = [] ->
  f (document ed) = Resolved out ->
  nested out = [] ->
  this (requests f els w) = this w /\
  parserCalls (effects (requests f els w))
  = (parserCalls (effects w) + length els)%nat.
Proof.
  induction els as [|el els IH]; intros w He Hl Hr Hf Hn.
  - simpl. split; [reflexivity | lia].
  - pose proof (getChildren_empty f el w ed out He Hl Hr Hf Hn) as Hthis.
    pose proof (getChildren_fetches f el w ed He Hl Hr) as Hcalls.
    change (requests f (el :: els) w)
      with (requests f els (getChildren f el w).1).
    destruct (IH (getChildren f el w).1) as [IH1 IH2];
      rewrite ?Hthis; try assumption.
    split; [rewrite IH1; exact Hthis|]. rewrite IH2, Hcalls. simpl. lia.
Qed.

(** C10.  When the fetch resolves with no roots, the provider is left
    exactly as it was before the request, so the next request, whatever
    it asks for and whatever the parser then answers, invokes the parser
    again; and as long as the parser answers with no roots, every one of
    any number of requests invokes it. *)
Theorem empty_outline_not_cached f el w ed out :
  editor (this w) = Some ed ->
  languageId (document ed) = "go"%string ->
  roots (this w) = [] ->
  f (document ed) = Resolved out ->
  nested out = [] ->
  let w1 := (getChildren f el w).1 in
  this w1 = this w /\
  effects w1 = effects w ++ [OutlineFromDoc (document ed)] /\
  (getChildren f None w).2 = Some [] /\
  (forall f' el',
     parserCalls (effects (getChildren f' el' w1).1)
     = S (parserCalls (effects w1))) /\
  (forall els,
     this (requests f els w) = this w /\
     parserCalls (effects (requests f els w))
     = (parserCalls (effects w) + length els)%nat).
Proof.
  intros He Hl Hr Hf Hn.
  pose proof (getChildren_empty f el w ed out He Hl Hr Hf Hn) as Hthis.
  cbv zeta. split; [exact Hthis|]. split.
  { unfold getChildren. rewrite He, Hl, Hr, Hf. simpl. destruct el; reflexivity. }
  split.
  { unfold getChildren. rewrite He, Hl, Hr, Hf, Hn. reflexivity. }
  split.
  { intros f' el'. apply (getChildren_fetches f' el' _ ed);
      rewrite ?Hthis; assumption. }
  intros els. apply (requests_empty f ed out); assumption.
Qed.

Lemma empty_outline_not_cached_witness :
  this (getChildren (fun _ => Resolved (mkOutline [] [])) None freshWorld).1
  = this freshWorld.
Proof.
  apply (empty_outline_not_cached (fun _ => Resolved (mkOutline [] [])) None
           freshWorld goEditor (mkOutline [] [])
           eq_refl eq_refl eq_refl eq_refl eq_refl).
Defined.

(** C1, as the code has it.  Whatever error the fetch rejects with, the
    framework-not-found diagnostic included, [getChildren] answers
    [undefined], leaves the cache empty, logs the error and shows the
    error notification; [fromTextEditor] rejects with the same error and
    shows no picker. *)
Theorem fetch_failure_is_reported f el w ed err :
  editor (this w) = Some ed ->
  languageId (document ed) = "go"%string ->
  roots (this w) = [] ->
  f (document ed) = Rejected err ->
  let r := getChildren f el w in
  r.2 = None /\
  this r.1 = this w /\
  effects r.1 =
    effects w ++
    [OutlineFromDoc (document ed);
     AppendLine ("Could not populate the outline view: " ++ error_toString err);
     ShowErrorMessage "Could not populate the outline view" ["Open Log"%string]] /\
  errorMessages (effects r.1) = S (errorMessages (effects w)) /\
  fromTextEditor ed f w = (emit (OutlineFromDoc (document ed)) w, Rejected err).
Proof.
  intros He Hl Hr Hf. cbv zeta.
  unfold getChildren, fromTextEditor. rewrite He, Hl, Hr, Hf. simpl.
  rewrite <- !app_assoc. simpl. repeat split.
  rewrite errorMessages_app. unfold errorMessages. simpl. lia.
Qed.

Lemma fetch_failure_is_reported_witness :
  (getChildren (fun _ => Rejected notGinkgoError) None freshWorld).2 = None /\
  roots (this (getChildren (fun _ => Rejected notGinkgoError) None freshWorld).1)
  = [].
Proof.
  pose proof (fetch_failure_is_reported (fun _ => Rejected notGinkgoError) None
                freshWorld goEditor notGinkgoError
                eq_refl eq_refl eq_refl eq_refl) as H.
  cbv zeta in H. destruct H as (Hret & Hthis & _).
  split; [exact Hret | rewrite Hthis; reflexivity].
Defined.

(** C1 as stated fails: the rejection carries the diagnostic, and the
    request still shows an error notification. *)
Lemma not_found_diagnostic_is_notified :
  isGinkgoImportsNotFoundError notGinkgoError = true /\
  ~ (errorMessages
       (effects (getChildren (fun _ => Rejected notGinkgoError) None
                             freshWorld).1)
     = errorMessages (effects freshWorld)).
Proof.
  split; [vm_compute; reflexivity|]. intros H. vm_compute in H. discriminate.
Qed.

(** *** Click disambiguation *)

Lemma clickTreeItem_unfold w ed n t :
  editor (this w) = Some ed ->
  clickTreeItem n t w =
  emit_all (if recently w n t then navigate_effects ed n else highlight_effects ed n)
           (with_this (set_lastClicked n t) w).
Proof.
  intros He. unfold clickTreeItem, recently. rewrite He.
  destruct (lastClickedTime (this w)) as [t0|]; [|reflexivity].
  destruct (lastClickedNode (this w)) as [n0|]; [|reflexivity].
  destruct (truthy_number t0); simpl; [|reflexivity].
  destruct (wasRecentlyClicked _ _ _ _ _); reflexivity.
Qed.

Lemma wasRecentlyClicked_spec T n0 t0 n t :
  wasRecentlyClicked T n0 t0 n t = true <->
  (start n0 = start n /\ end_ n0 = end_ n) /\ t - t0 < T.
Proof.
  unfold wasRecentlyClicked.
  rewrite !andb_true_iff, !Z.eqb_eq, Z.ltb_lt. reflexivity.
Qed.

Lemma navigate_not_highlight ed n (es : list Effect) :
  es ++ navigate_effects ed n <> es ++ highlight_effects ed n.
Proof. intros H. apply app_inv_head in H. discriminate. Qed.

Lemma recorded_click w ed n0 t0 n t :
  editor (this w) = Some ed ->
  lastClickedNode (this w) = Some n0 ->
  lastClickedTime (this w) = Some t0 ->
  t0 <> 0 ->
  let w' := clickTreeItem n t w in
  let near := (start n0 = start n /\ end_ n0 = end_ n) /\
              t - t0 < doubleClickThreshold (this w) in
  (effects w' = effects w ++ navigate_effects ed n <-> near) /\
  (effects w' = effects w ++ highlight_effects ed n <-> ~ near).
Proof.
  intros He Hn Ht Hz. cbv zeta.
  rewrite (clickTreeItem_unfold w ed n t He).
  unfold recently. rewrite Ht, Hn.
  assert (truthy_number t0 = true) as ->.
  { unfold truthy_number. apply negb_true_iff, Z.eqb_neq, Hz. }
  cbn [andb]. rewrite <- wasRecentlyClicked_spec.
  destruct (wasRecentlyClicked _ n0 t0 n t); simpl; split; split; intros H;
    try reflexivity; try discriminate; try congruence.
  - exfalso. apply (navigate_not_highlight ed n (effects w)). exact H.
  - exfalso. symmetry in H. apply (navigate_not_highlight ed n (effects w)). exact H.
Qed.

Lemma click_records w ed n t :
  editor (this w) = Some ed ->
  let w' := clickTreeItem n t w in
  lastClickedNode (this w') = Some n /\ lastClickedTime (this w') = Some t /\
  editor (this w') = Some ed /\
  doubleClickThreshold (this w') = doubleClickThreshold (this w).
Proof.
  intros He. cbv zeta. rewrite (clickTreeItem_unfold w ed n t He).
  destruct (recently w n t); simpl; auto.
Qed.

(** C4.  With an editor bound and a wall-clock time other than zero at
    the first activation: the second activation navigates exactly when it
    is on the same [(start, end)] key and less than the threshold later,
    and highlights otherwise, in particular on any other key; each
    activation records its node and time, so whatever the second was, a
    third is classified against the second. *)
Theorem click_disambiguation w ed n0 t0 n1 t1 :
  editor (this w) = Some ed ->
  t0 <> 0 ->
  let T := doubleClickThreshold (this w) in
  let w1 := clickTreeItem n0 t0 w in
  let w2 := clickTreeItem n1 t1 w1 in
  let same := start n0 = start n1 /\ end_ n0 = end_ n1 in
  (effects w2 = effects w1 ++ navigate_effects ed n1 <-> same /\ t1 - t0 < T) /\
  (effects w2 = effects w1 ++ highlight_effects ed n1 <-> ~ (same /\ t1 - t0 < T)) /\
  (lastClickedNode (this w1) = Some n0 /\ lastClickedTime (this w1) = Some t0) /\
  (lastClickedNode (this w2) = Some n1 /\ lastClickedTime (this w2) = Some t1) /\
  (forall n2 t2, t1 <> 0 ->
     let w3 := clickTreeItem n2 t2 w2 in
     effects w3 = effects w2 ++ navigate_effects ed n2 <->
     (start n1 = start n2 /\ end_ n1 = end_ n2) /\ t2 - t1 < T).
Proof.
  intros He Hz. cbv zeta.
  destruct (click_records w ed n0 t0 He) as (Hn1 & Ht1 & He1 & HT1).
  destruct (click_records _ ed n1 t1 He1) as (Hn2 & Ht2 & He2 & HT2).
  destruct (recorded_click _ ed n0 t0 n1 t1 He1 Hn1 Ht1 Hz) as [Hnav Hhi].
  cbv zeta in Hnav, Hhi. rewrite HT1 in Hnav, Hhi.
  split; [exact Hnav|]. split; [exact Hhi|]. split; [auto|]. split; [auto|].
  intros n2 t2 Hz1.
  destruct (recorded_click _ ed n1 t1 n2 t2 He2 Hn2 Ht2 Hz1) as [Hnav3 _].
  cbv zeta in Hnav3. rewrite HT2, HT1 in Hnav3. exact Hnav3.
Qed.

Lemma click_disambiguation_witness :
  effects (clickTreeItem itNode 1200 (clickTreeItem itNode 1000 freshWorld))
  = effects (clickTreeItem itNode 1000 freshWorld)
    ++ navigate_effects goEditor itNode.
Proof.
  pose proof (click_disambiguation freshWorld goEditor itNode 1000 itNode 1200
                eq_refl ltac:(discriminate)) as H.
  cbv zeta in H. destruct H as (Hnav & _).
  apply Hnav. split; [split; reflexivity | reflexivity].
Defined.

(** *** Debouncing *)

Lemma filter_all {A} (f : A -> bool) l :
  Forall (fun x => f x = true) l -> List.filter f l = l.
Proof.
  induction 1 as [|x l Hx _ IH]; simpl; [reflexivity|]. rewrite Hx, IH. reflexivity.
Qed.

Lemma filter_none {A} (f : A -> bool) l :
  Forall (fun x => f x = false) l -> List.filter f l = [].
Proof.
  induction 1 as [|x l Hx _ IH]; simpl; [reflexivity|]. rewrite Hx, IH. reflexivity.
Qed.


Lemma timer_delay_clamped d :
  d < 1 \/ TIMEOUT_MAX < d -> timer_delay d = 1.
Proof.
  intros H. unfold timer_delay.
  destruct (Z.leb_spec 1 d), (Z.leb_spec d TIMEOUT_MAX); simpl; try reflexivity.
  lia.
Qed.

Lemma timer_delay_positive d : 1 <= timer_delay d <= TIMEOUT_MAX.
Proof.
  unfold timer_delay.
  destruct (Z.leb_spec 1 d), (Z.leb_spec d TIMEOUT_MAX); simpl;
    unfold TIMEOUT_MAX in *; lia.
Qed.

Lemma edit_restarts ed D w t evt :
  updateListener (this w) = Some OnDidChangeTextDocument ->
  editor (this w) = Some ed ->
  timer_delay (updateOnTypeDelay (this w)) = D ->
  clock w <= t ->
  Forall (fun tm => documentChangedTimer (this w) = Some tm.1 /\ t < tm.2) (timers w) ->
  qualifying ed evt ->
  debouncing ed D (effects w) t (step w (t, DidChangeTextDocument evt)).
Proof.
  intros Hl He Hd Hc Ht [Hu Hch].
  destruct w as [p tms nxt clk effs]. simpl in *.
  assert (List.filter (fun tm : nat * Z => negb (tm.2 <=? t)) tms = tms) as Hkeep.
  { apply filter_all. eapply Forall_impl; [exact Ht|]. intros tm [_ H].
    simpl in H. apply negb_true_iff, Z.leb_gt. exact H. }
  assert (List.filter (fun tm : nat * Z => tm.2 <=? t) tms = []) as Hnone.
  { apply filter_none. eapply Forall_impl; [exact Ht|]. intros tm [_ H].
    simpl in H. apply Z.leb_gt. exact H. }
  unfold step, advance, deliver. simpl. rewrite Hkeep, Hnone, Hl.
  unfold onDocumentChanged, isDocumentForActiveEditor. simpl. rewrite He.
  rewrite Hu, String.eqb_refl. simpl.
  destruct (contentChanges evt) as [|c cs]; [congruence|].
  rewrite app_nil_r, Z.max_r by lia.
  destruct (documentChangedTimer p) as [id|] eqn:Hid; simpl.
  - assert (List.filter (fun tm : nat * Z => negb (tm.1 =? id)%nat) tms = []) as ->.
    { apply filter_none. eapply Forall_impl; [exact Ht|]. intros tm [H _].
      simpl in H. injection H as <-. rewrite Nat.eqb_refl. reflexivity. }
    split; simpl; try assumption; try reflexivity.
    exists nxt. rewrite Hd. auto.
  - assert (tms = []) as ->.
    { destruct tms as [|tm tms]; [reflexivity|].
      apply Forall_inv in Ht. destruct Ht; discriminate. }
    split; simpl; try assumption; try reflexivity.
    exists nxt. rewrite Hd. auto.
Qed.




Lemma debouncing_fires ed D es t w T :
  debouncing ed D es t w ->
  effects (advance T w) = es ++ (if t + D <=? T then [Fire] else []) /\
  timers (advance T w) = (if t + D <=? T then [] else timers w).
Proof.
  intros [(id & Htm & Hid) Hc Hl He Hd Hr Hes].
  unfold advance. simpl. rewrite Htm, Hes. simpl.
  destruct (t + D <=? T); simpl; auto.
Qed.



(** *** Switching the update mode *)

Lemma map_Fire_repeat {A} (l : list A) :
  map (fun _ => Fire) l = repeat Fire (length l).
Proof. induction l; simpl; congruence. Qed.

Lemma filter_split_length (l : list (nat * Z)) t T :
  t <= T ->
  Nat.add
    (length (List.filter (fun tm : nat * Z => tm.2 <=? t) l))
    (length (List.filter (fun tm : nat * Z => tm.2 <=? T)
               (List.filter (fun tm : nat * Z => negb (tm.2 <=? t)) l))) =
  length (List.filter (fun tm : nat * Z => tm.2 <=? T) l).
Proof.
  intros Hle. induction l as [|[id due] l IH]; simpl; [reflexivity|].
  destruct (due <=? t) eqn:E1; simpl.
  - assert ((due <=? T) = true) as -> by (apply Z.leb_le; apply Z.leb_le in E1; lia).
    simpl. rewrite IH. reflexivity.
  - destruct (due <=? T); simpl; rewrite <- IH; lia.
Qed.

Lemma filter_filter_later (l : list (nat * Z)) t T :
  t <= T ->
  List.filter (fun tm : nat * Z => negb (tm.2 <=? T))
    (List.filter (fun tm : nat * Z => negb (tm.2 <=? t)) l) =
  List.filter (fun tm : nat * Z => negb (tm.2 <=? T)) l.
Proof.
  intros Hle. induction l as [|[id due] l IH]; simpl; [reflexivity|].
  destruct (due <=? t) eqn:E1; simpl.
  - assert ((due <=? T) = true) as -> by (apply Z.leb_le; apply Z.leb_le in E1; lia).
    simpl. exact IH.
  - destruct (due <=? T); simpl; rewrite IH; reflexivity.
Qed.

Lemma advance_advance t T w : t <= T -> advance T (advance t w) = advance T w.
Proof.
  intros Hle. unfold advance. simpl. f_equal.
  - apply filter_filter_later, Hle.
  - lia.
  - rewrite <- app_assoc. f_equal. rewrite !map_Fire_repeat, <- repeat_app.
    f_equal. apply filter_split_length, Hle.
Qed.

Lemma idle_edits evs : forall w T,
  updateListener (this w) = Some OnDidSaveTextDocument ->
  Forall is_edit evs -> Forall (fun te => te.1 <= T) evs ->
  advance T (run evs w) = advance T w.
Proof.
  induction evs as [|[t ev] evs IH]; intros w T Hl He Ht; [reflexivity|].
  apply Forall_cons in He as [[evt Hev] He]. apply Forall_cons in Ht as [Ht1 Ht].
  simpl in Hev, Ht1. subst ev.
  change (run ((t, DidChangeTextDocument evt) :: evs) w)
    with (run evs (step w (t, DidChangeTextDocument evt))).
  assert (step w (t, DidChangeTextDocument evt) = advance t w) as ->.
  { unfold step, deliver. simpl. rewrite Hl. reflexivity. }
  rewrite IH by assumption. apply advance_advance, Ht1.
Qed.

(** C3, as the code has it.  Switching to [onSave] leaves the pending
    timers pending.  From then on edit events are not listened to: up to
    any time [T] they change nothing, so the cache is not invalidated and
    no timer is started, and the only refreshes are those of the timers
    that were pending at the switch, each when it is due. *)
Theorem mode_switch_keeps_pending_timer w evs T :
  Forall is_edit evs -> Forall (fun te => te.1 <= T) evs ->
  let w1 := setUpdateOn onSave w in
  timers w1 = timers w /\
  advance T (run evs w1) = advance T w1 /\
  this (advance T w1) =
    set_updateListener (Some OnDidSaveTextDocument) (this w) /\
  effects (advance T w1) =
    effects w ++
    map (fun _ => Fire)
        (List.filter (fun tm : nat * Z => tm.2 <=? T) (timers w)) /\
  (forall id due, timers w = [(id, due)] ->
     effects (advance T (run evs w1)) =
     effects w ++ (if due <=? T then [Fire] else [])).
Proof.
  intros He Ht. cbv zeta.
  assert (updateListener (this (setUpdateOn onSave w))
          = Some OnDidSaveTextDocument) as Hl.
  { unfold setUpdateOn. destruct (updateListener (this w)); reflexivity. }
  assert (effects (advance T (setUpdateOn onSave w)) =
          effects w ++
          map (fun _ => Fire)
              (List.filter (fun tm : nat * Z => tm.2 <=? T) (timers w))) as Hfx.
  { unfold setUpdateOn; destruct (updateListener (this w)); reflexivity. }
  split; [unfold setUpdateOn; destruct (updateListener (this w)); reflexivity|].
  split; [apply idle_edits; assumption|].
  split; [unfold setUpdateOn; destruct (updateListener (this w)); reflexivity|].
  split; [exact Hfx|].
  intros id due Htm. rewrite idle_edits by assumption. rewrite Hfx, Htm.
  simpl. destruct (due <=? T); reflexivity.
Qed.

Lemma mode_switch_keeps_pending_timer_witness :
  effects (advance 2000
             (run [(1100, DidChangeTextDocument keystroke)]
                  (setUpdateOn onSave typingWorld)))
  = effects typingWorld ++ [Fire].
Proof.
  pose proof (mode_switch_keeps_pending_timer typingWorld
                [(1100, DidChangeTextDocument keystroke)] 2000
                ltac:(apply List.Forall_cons;
                      [exists keystroke; reflexivity | apply List.Forall_nil])
                ltac:(apply List.Forall_cons;
                      [simpl; lia | apply List.Forall_nil])) as H.
  cbv zeta in H. destruct H as (_ & _ & _ & _ & Hone).
  exact (Hone 0%nat 1300 eq_refl).
Defined.

(** C3 as stated fails: a timer is pending, the mode is switched to
    [onSave], no save happens, and the refresh still fires. *)
Lemma mode_switch_refresh_still_fires :
  timers typingWorld = [(0%nat, 1300)] /\
  documentChangedTimer (this typingWorld) = Some 0%nat /\
  updateListener (this typingWorld) = Some OnDidChangeTextDocument /\
  ~ (forall T,
       fires (effects (advance T (setUpdateOn onSave typingWorld)))
       = fires (effects typingWorld)).
Proof.
  repeat split. intros H. specialize (H 2000). vm_compute in H. discriminate.
Qed.

(* ================================================================= *)
(** * Further properties *)

Import Process TreeItems QuickPick Whole Samples.

(* ================================================================= *)
(** ** [preOrder] under any callback that leaves the store alone *)

Open Scope nat_scope.

Section PreOrderAnyCallback.
Context {St : Type}.
Variable f : loc -> heap * St -> result (heap * St).
Variable g : loc -> heap -> St -> St.
Hypothesis f_keeps_store : forall n H s, f n (H, s) = Ok (H, g n H s).

Lemma preOrder_walk :
  (forall j b H s fuel,
     emb b (seg b j) H -> depth j < fuel ->
     preOrder f fuel (root_loc b j) (H, s)
     = Ok (H, fold_left (fun s' n => g n H s') (pre b j) s)) /\
  (forall js b H s fuel,
     emb b (threaded seg b js) H -> forest_depth js < fuel ->
     for_of (preOrder f fuel) (kid_locs b js) (H, s)
     = Ok (H, fold_left (fun s' n => g n H s') (threaded pre b js) s)).
Proof.
  apply json_both_ind.
  - intros n t s0 e sp fo p b H s fuel E Hd. destruct fuel as [|fuel]; [lia|].
    destruct (emb_root _ _ _ E) as (o & Ho & Hn). simpl in Hn.
    cbn [preOrder]. rewrite f_keeps_store. cbn [bind fst]. rewrite Ho, Hn.
    reflexivity.
  - intros n t s0 e sp fo p js IH b H s fuel E Hd.
    destruct fuel as [|fuel]; [lia|].
    destruct (emb_root _ _ _ E) as (o & Ho & Hn). simpl in Hn.
    cbn [preOrder]. rewrite f_keeps_store. cbn [bind fst]. rewrite Ho, Hn.
    rewrite seg_node in E. apply emb_app in E as [E _].
    rewrite depth_node in Hd. rewrite IH by (assumption || lia). reflexivity.
  - intros b H s fuel _ _. reflexivity.
  - intros j js IHj IHjs b H s fuel E Hd. rewrite forest_depth_cons in Hd.
    cbn [threaded] in E. apply emb_app in E as [Ej Ejs].
    rewrite seg_length in Ejs. cbn [kid_locs for_of threaded].
    rewrite IHj by (assumption || lia). cbn [bind].
    rewrite IHjs by (assumption || lia). rewrite fold_left_app. reflexivity.
Qed.

(** X1.  Whatever the callback, as long as it returns and leaves the
    store alone: over a parsed forest, records without [nodes] included,
    [preOrder] returns, leaves the store alone, and has called the
    callback once per node, in the pre-order of the records. *)
Theorem preOrder_calls_in_preorder (input : list JsonNode) (h0 : heap) (s : St) :
  exists order,
    for_of (preOrder f (S (length (JSON_parse input h0).2)))
           (JSON_parse input h0).1 ((JSON_parse input h0).2, s)
    = Ok ((JSON_parse input h0).2,
          fold_left (fun s' n => g n (JSON_parse input h0).2 s') order s) /\
    length order = forest_size input /\
    NoDup order /\
    Forall2 (labelled (JSON_parse input h0).2) order (flat_map preorder input).
Proof.
  unfold JSON_parse. rewrite (proj2 alloc_layout). cbn [fst snd].
  set (b := length h0). set (h := h0 ++ threaded seg b input).
  pose proof (emb_initial h0 b input eq_refl) as E. fold h in E.
  exists (threaded pre b input). split.
  - apply (proj2 preOrder_walk); [exact E|].
    unfold h. rewrite length_app, threaded_seg_length.
    pose proof (proj2 depth_le_size input). lia.
  - split; [apply pre_length|]. split; [apply pre_NoDup|].
    apply labels_all, E.
Qed.
End PreOrderAnyCallback.

Lemma preOrder_calls_in_preorder_witness :
  exists order,
    for_of (preOrder (fun n st => Ok (st.1, st.2 ++ [n]))
                     (S (length (JSON_parse sampleOutput []).2)))
           (JSON_parse sampleOutput []).1 ((JSON_parse sampleOutput []).2, [])
    = Ok ((JSON_parse sampleOutput []).2,
          fold_left (fun s' n => s' ++ [n]) order []) /\
    length order = 16.
Proof.
  destruct (preOrder_calls_in_preorder
              (fun n st => Ok (st.1, st.2 ++ [n])) (fun n _ s => s ++ [n])
              (fun n H s => eq_refl) sampleOutput [] [])
    as (order & Hrun & Hlen & _).
  exists order. split; [exact Hrun | exact Hlen].
Defined.

(* ================================================================= *)
(** ** The tree view and the flat list show the same nodes *)

(** X2.  After a build, the nodes the tree view can reach, the roots and
    everything below them, are exactly the nodes of the flat list. *)
Theorem tree_and_list_agree (input : list JsonNode) (h0 : heap) :
  forest_complete input = true ->
  exists out H',
    fromJSON input h0 = Ok (out, H') /\
    forall l, l ∈ flat out <-> reachable H' (nested out) l.
Proof.
  intros Hc. pose proof (fromJSON_run input h0) as R.
  destruct (fromJSON input h0) as [[out H']|e|];
    [|destruct R; congruence|contradiction].
  destruct R as (_ & Hn & Hf & Hpost & Hk).
  pose proof (fromJSON_emb _ _ _ Hpost) as E.
  exists out, H'. split; [reflexivity|]. rewrite Hf, Hn. intros l. split.
  - intros Hl. apply (proj2 pre_range) in Hl.
    eapply in_range_reachable; try eassumption. reflexivity.
  - intros [Hroot|(r & Hr & Hd)].
    + apply kid_locs_pre, Hroot.
    + apply (proj2 pre_range). apply kid_locs_range in Hr.
      pose proof (descendant_range _ _ _ Hk r l Hd Hr). lia.
Qed.

Lemma tree_and_list_agree_witness :
  exists out H',
    fromJSON completeForest [] = Ok (out, H') /\
    forall l, l ∈ flat out -> reachable H' (nested out) l.
Proof.
  destruct (tree_and_list_agree completeForest [] eq_refl)
    as (out & H' & Hrun & Hiff).
  exists out, H'. split; [exact Hrun|]. intros l Hl. apply Hiff, Hl.
Defined.

(* ================================================================= *)
(** ** Tree items of built nodes *)

Lemma complete_nodes :
  (forall j b o, complete j = true -> o ∈ seg b j -> is_Some (nodes o)) /\
  (forall js b o, forest_complete js = true -> o ∈ threaded seg b js ->
                  is_Some (nodes o)).
Proof.
  apply json_both_ind.
  - intros; discriminate.
  - intros n t s e sp f p js IH b o Hc Ho. rewrite seg_node in Ho.
    apply elem_of_app in Ho as [Ho|Ho].
    + apply (IH b o Hc Ho).
    + apply list_elem_of_singleton in Ho. subst o. simpl. eauto.
  - intros b o _ Ho. inversion Ho.
  - intros j js IHj IHjs b o Hc Ho. simpl in Hc.
    apply andb_true_iff in Hc as [Hc1 Hc2]. cbn [threaded] in Ho.
    apply elem_of_app in Ho as [Ho|Ho]; [apply (IHj b o Hc1 Ho)|].
    apply (IHjs _ o Hc2 Ho).
Qed.

Section TreeItemsOfBuiltNodes.
Variable labelForGinkgoNode : GinkgoNode -> string.
Variable iconForGinkgoNode : GinkgoNode -> option ThemeIcon.

(** X3.  After a build, [getTreeItem] returns on every node of the flat
    list; the item is expandable exactly when the node has a child, it is
    never merely collapsed, and a click on it sends the node itself to
    the click command. *)
Theorem tree_item_of_built_node (clickTreeItemCommand : string)
    (input : list JsonNode) (h0 : heap) :
  forest_complete input = true ->
  exists out H',
    fromJSON input h0 = Ok (out, H') /\
    forall l, l ∈ flat out ->
      exists o item,
        H' !! l = Some o /\
        getTreeItem labelForGinkgoNode iconForGinkgoNode
                    clickTreeItemCommand o = Ok item /\
        (collapsibleState item = Expanded <-> exists c, child_of H' l c) /\
        (collapsibleState item = CollapsibleNone <->
         ~ exists c, child_of H' l c) /\
        item_command item = mkCommand clickTreeItemCommand [o] EmptyString.
Proof.
  intros Hc. pose proof (fromJSON_run input h0) as R.
  destruct (fromJSON input h0) as [[out H']|e|];
    [|destruct R; congruence|contradiction].
  destruct R as (_ & Hn & Hf & Hpost & Hk).
  pose proof (fromJSON_emb _ _ _ Hpost) as E.
  exists out, H'. split; [reflexivity|]. rewrite Hf. intros l Hl.
  apply (proj2 pre_range) in Hl.
  destruct (emb_is_Some _ _ _ (l - length h0) E
              ltac:(rewrite threaded_seg_length; lia)) as [o Ho].
  replace (length h0 + (l - length h0)) with l in Ho by lia.
  assert (is_Some (nodes o)) as [cs Hcs].
  { pose proof (emb_lookup _ _ _ _ _ E
                  ltac:(rewrite threaded_seg_length; exact Hl) Ho) as Hs.
    apply list_elem_of_lookup_2 in Hs.
    apply (proj2 complete_nodes input _ _ Hc) in Hs. exact Hs. }
  exists o. unfold getTreeItem. rewrite Hcs. eexists. split; [exact Ho|].
  split; [reflexivity|]. cbn [collapsibleState item_command].
  assert ((exists c, child_of H' l c) <-> cs <> []) as Hiff.
  { split.
    - intros (c & o' & cs' & Ho' & Hcs' & Hin) ->.
      rewrite Ho in Ho'. injection Ho' as <-. rewrite Hcs in Hcs'.
      injection Hcs' as <-. inversion Hin.
    - intros Hne. destruct cs as [|c cs]; [congruence|].
      exists c, o, (c :: cs). split; [exact Ho|]. split; [exact Hcs|].
      apply list_elem_of_here. }
  rewrite Hiff. destruct cs; repeat split; try congruence; try discriminate.
  intros H. exfalso. apply H. discriminate.
Qed.
End TreeItemsOfBuiltNodes.

Lemma tree_item_of_built_node_witness :
  exists out H',
    fromJSON completeForest [] = Ok (out, H') /\
    forall l, l ∈ flat out ->
      exists o item,
        H' !! l = Some o /\
        getTreeItem name (fun _ => None) "ginkgooutline.clickTreeItem" o
        = Ok item.
Proof.
  destruct (tree_item_of_built_node name (fun _ => None)
              "ginkgooutline.clickTreeItem" completeForest [] eq_refl)
    as (out & H' & Hrun & Hall).
  exists out, H'. split; [exact Hrun|]. intros l Hl.
  destruct (Hall l Hl) as (o & item & Ho & Hitem & _).
  exists o, item. split; [exact Ho | exact Hitem].
Defined.

(* ================================================================= *)
(** ** The ginkgo process *)

Open Scope Z_scope.

Lemma occurs_at_app needle p s k :
  occurs_at needle s k -> occurs_at needle (p ++ s) (String.length p + k).
Proof. intros H. induction p as [|c p IH]; [exact H | exact IH]. Qed.

(** An occurrence somewhere and none at the start is what the test asks. *)
Lemma recognised_intro err k :
  occurs_at ginkgoImportsNotFoundError (message err) k ->
  ~ occurs_at ginkgoImportsNotFoundError (message err) 0 ->
  isGinkgoImportsNotFoundError err = true.
Proof.
  intros Hk H0. unfold isGinkgoImportsNotFoundError, indexOf.
  assert (truthy_string (message err) = true) as ->.
  { destruct (message err); [|reflexivity].
    apply occurs_at_empty in Hk. discriminate. }
  destruct (indexOf_from_spec ginkgoImportsNotFoundError (message err) 0
              ltac:(lia)) as [[_ Hno]|(k0 & Hr & Hk0 & _)].
  - exfalso. apply (Hno k), Hk.
  - rewrite Hr. simpl. apply Z.ltb_lt. destruct k0; [contradiction | lia].
Qed.

Lemma string_app_assoc (a b c : string) : (a +:+ b) +:+ c = a +:+ (b +:+ c).
Proof.
  induction a as [|x a IH]; [reflexivity|].
  change (String x ((a +:+ b) +:+ c) = String x (a +:+ (b +:+ c))).
  rewrite IH. reflexivity.
Qed.

Lemma prefix_split (p m : string) :
  String.prefix p m = true -> exists rest, m = p +:+ rest.
Proof.
  revert m. induction p as [|c p IH]; intros m H; [exists m; reflexivity|].
  destruct m as [|c' m]; [discriminate|]. cbn [String.prefix] in H.
  destruct (Ascii.ascii_dec c c') as [->|]; [|discriminate].
  destruct (IH m H) as [rest ->]. exists rest. reflexivity.
Qed.

(** Every rejection built from a failed run starts with the same words,
    and ends with what the child wrote to its standard error. *)
Lemma on_exit_message e out errout :
  exists m,
    on_exit (Some e) out errout = Rejected (mkError m) /\
    String.prefix "error running " m = true /\
    (truthy_string errout = true -> exists front, m = front +:+ errout).
Proof.
  unfold on_exit.
  destruct (code e) as [c|]; [destruct (truthy_code (Some c))|];
    destruct (truthy_string errout);
    eexists; (split; [reflexivity|]); (split; [reflexivity|]);
    intros H; try discriminate.
  - exists (("error running " +:+ dquote +:+ cmd e +:+ dquote)
            +:+ " (error code " +:+ code_toString c +:+ ")" +:+ ": ").
    rewrite !string_app_assoc. reflexivity.
  - exists (("error running " +:+ dquote +:+ cmd e +:+ dquote) +:+ ": ").
    rewrite !string_app_assoc. reflexivity.
  - exists (("error running " +:+ dquote +:+ cmd e +:+ dquote) +:+ ": ").
    rewrite !string_app_assoc. reflexivity.
Qed.

(** Such a message does not begin with the diagnostic. *)
Lemma error_running_not_diagnostic m :
  String.prefix "error running " m = true ->
  ~ occurs_at ginkgoImportsNotFoundError m 0.
Proof.
  intros H Hocc. apply prefix_split in H as [rest ->].
  apply occurs_at_0 in Hocc. discriminate.
Qed.

(** X4.  When the child fails and what it wrote to its standard error
    contains the diagnostic, the rejection of [callGinkgoOutline] is one
    that [isGinkgoImportsNotFoundError] recognises, unless the pipe to the
    child was missing; the rejection for a missing pipe is not
    recognised. *)
Theorem diagnostic_on_stderr_is_recognised
    (execFile : string -> list string -> TextDocument -> ChildRun)
    (ginkgoPath : string) (doc : TextDocument) (e : ExecFileException) (k : nat) :
  let p := execFile ginkgoPath ["outline"; "--format=json"; "-"]%string doc in
  failure p = Some e ->
  occurs_at ginkgoImportsNotFoundError (stderr p) k ->
  (stdin p = true \/ pid p = None \/ pid p = Some O ->
   exists err, callGinkgoOutline execFile ginkgoPath doc = Rejected err /\
               isGinkgoImportsNotFoundError err = true) /\
  (stdin p = false -> (exists n, pid p = Some (S n)) ->
   callGinkgoOutline execFile ginkgoPath doc = Rejected stdin_missing /\
   isGinkgoImportsNotFoundError stdin_missing = false).
Proof.
  intros p Hf Hk. unfold callGinkgoOutline. fold p. rewrite Hf. split.
  - intros Hin.
    destruct (on_exit_message e (stdout p) (stderr p)) as (m & Hm & Hpre & Happ).
    exists (mkError m). split.
    { destruct Hin as [Hin|[Hin|Hin]]; rewrite Hin;
        [destruct (pid p) as [[|n]|]|..]; exact Hm. }
    assert (truthy_string (stderr p) = true) as Ht.
    { destruct (stderr p); [|reflexivity].
      apply occurs_at_empty in Hk. discriminate. }
    destruct (Happ Ht) as [front Hfront].
    apply (recognised_intro (mkError m) (String.length front + k)).
    + simpl. rewrite Hfront. apply occurs_at_app, Hk.
    + apply error_running_not_diagnostic, Hpre.
  - intros Hin [n Hpid]. rewrite Hpid, Hin. split; reflexivity.
Qed.

Lemma diagnostic_on_stderr_is_recognised_witness :
  exists err,
    callGinkgoOutline failingGinkgo "ginkgo" goDocument = Rejected err /\
    isGinkgoImportsNotFoundError err = true.
Proof.
  apply (proj1 (diagnostic_on_stderr_is_recognised failingGinkgo "ginkgo"
                  goDocument
                  (mkExecFileException "ginkgo outline --format=json -"
                                       (Some (ExitStatus 1)))
                  O eq_refl eq_refl)).
  left. reflexivity.
Defined.

(** X5.  [fromDocument] rejects with the error of the process when that
    fails and with the decoder's when the output is not JSON; on decoded
    output it rejects with the [TypeError] exactly when some record has
    no [nodes], and otherwise resolves with an outline that lists every
    record. *)
Theorem fromDocument_outcome (decode : string -> result (list JsonNode))
    (execFile : string -> list string -> TextDocument -> ChildRun)
    (ginkgoPath : string) (doc : TextDocument) (h0 : heap) :
  (forall e, callGinkgoOutline execFile ginkgoPath doc = Rejected e ->
     fromDocument decode execFile ginkgoPath doc h0 = Throw e) /\
  (forall output,
     callGinkgoOutline execFile ginkgoPath doc = Resolved output ->
     (forall e, decode output = Throw e ->
        fromDocument decode execFile ginkgoPath doc h0 = Throw e) /\
     (forall input, decode output = Ok input ->
        (forest_complete input = false <->
         fromDocument decode execFile ginkgoPath doc h0 = Throw not_iterable) /\
        (forest_complete input = true <->
         exists out H',
           fromDocument decode execFile ginkgoPath doc h0 = Ok (out, H') /\
           length (flat out) = forest_size input /\
           length (nested out) = length input))).
Proof.
  unfold fromDocument. split.
  - intros e ->. reflexivity.
  - intros output ->. split.
    + intros e ->. reflexivity.
    + intros input ->. cbn [bind].
      pose proof (fromJSON_run input h0) as R.
      destruct (fromJSON input h0) as [[out H']|e|]; [| |contradiction].
      * destruct R as (Hc & Hn & Hf & _). rewrite Hc.
        split; split; try discriminate.
        -- intros _. exists out, H'. split; [reflexivity|]. rewrite Hf, Hn.
           split; [apply pre_length|].
           clear. generalize (length h0). induction input as [|j js IH];
             intros b; simpl; [reflexivity | rewrite IH; reflexivity].
        -- reflexivity.
      * destruct R as [Hc ->]. rewrite Hc. split; split; try discriminate; auto.
        intros (out & H' & He & _). discriminate.
Qed.

Lemma fromDocument_outcome_witness :
  fromDocument (fun _ => Ok []) failingGinkgo "ginkgo" goDocument []
  = Throw (mkError ("error running " ++ dquote ++
                    "ginkgo outline --format=json -" ++ dquote ++
                    " (error code 1): " ++ ginkgoImportsNotFoundError ++
                    TreeItems.newline)).
Proof.
  apply (proj1 (fromDocument_outcome (fun _ => Ok []) failingGinkgo "ginkgo"
                  goDocument [])).
  reflexivity.
Defined.

(* ================================================================= *)
(** ** The cache, beyond the first fetch *)

(** X6.  While a Go editor is bound and the cache holds at least one
    root, a request is answered from the cache, the roots or the
    [nodes] of the element asked for, without calling the parser and
    without changing anything; so is any number of requests. *)
Theorem cached_outline_is_served f w ed :
  editor (this w) = Some ed ->
  languageId (document ed) = "go"%string ->
  roots (this w) <> [] ->
  (forall el,
     getChildren f el w
     = (w, match el with
           | None => Some (roots (this w))
           | Some e => nodes e
           end)) /\
  (forall els, requests f els w = w).
Proof.
  intros He Hl Hr.
  assert (forall el,
     getChildren f el w
     = (w, match el with
           | None => Some (roots (this w))
           | Some e => nodes e
           end)) as Hone.
  { intros el. unfold getChildren. rewrite He, Hl. simpl.
    destruct (roots (this w)) as [|r rs] eqn:E; [congruence|].
    destruct el; simpl; rewrite ?E; reflexivity. }
  split; [exact Hone|].
  induction els as [|el els IH]; [reflexivity|].
  unfold requests in *. simpl. rewrite Hone. exact IH.
Qed.

Lemma cached_outline_is_served_witness :
  requests (fun _ => Rejected notGinkgoError) [None; Some itNode; None]
           savingWorld
  = savingWorld.
Proof.
  apply (proj2 (cached_outline_is_served (fun _ => Rejected notGinkgoError)
                  savingWorld goEditor eq_refl eq_refl
                  ltac:(discriminate))).
Defined.

(** X7.  With no editor bound, or with one whose document is not Go, a
    request answers [undefined], leaves the provider as it was, cache
    included, and neither calls the parser nor shows a notification nor
    fires a refresh. *)
Theorem no_outline_without_go_editor f el w :
  (editor (this w) = None \/
   exists ed, editor (this w) = Some ed /\
              languageId (document ed) <> "go"%string) ->
  (getChildren f el w).2 = None /\
  this (getChildren f el w).1 = this w /\
  timers (getChildren f el w).1 = timers w /\
  parserCalls (effects (getChildren f el w).1) = parserCalls (effects w) /\
  errorMessages (effects (getChildren f el w).1) = errorMessages (effects w) /\
  fires (effects (getChildren f el w).1) = fires (effects w).
Proof.
  intros [He|(ed & He & Hl)]; unfold getChildren; rewrite He.
  - repeat split.
  - apply String.eqb_neq in Hl. rewrite Hl. simpl.
    unfold parserCalls, errorMessages, fires.
    rewrite !List.filter_app, !length_app. simpl. repeat split; lia.
Qed.

Lemma no_outline_without_go_editor_witness :
  (getChildren (fun _ => Resolved (mkOutline [] [])) None
     (new (Some outputPane) onType 300 500 1000)).2 = None.
Proof.
  apply (no_outline_without_go_editor (fun _ => Resolved (mkOutline [] [])) None
           (new (Some outputPane) onType 300 500 1000)).
  right. exists outputPane. split; [reflexivity | discriminate].
Defined.

(** The two runs of [getChildren], with nothing in between, are the
    call as a whole. *)
Lemma getChildren_phases f el w :
  getChildren f el w
  = match getChildren_begin el w with
    | (w1, Returned r) => (w1, r)
    | (w1, AwaitingOutline doc) => getChildren_resume (f doc) el w1
    end.
Proof.
  unfold getChildren, getChildren_begin, getChildren_resume.
  destruct (editor (this w)) as [ed|]; [|reflexivity].
  destruct (negb _); [reflexivity|].
  destruct (roots (this w)) as [|r rs] eqn:Hr;
    [|destruct el; cbn; rewrite ?Hr; reflexivity].
  destruct (f (document ed)); destruct el; reflexivity.
Qed.

(** X8.  Each invalidating event, a save of the bound document under
    [onSave], a content-changing edit of it under [onType], a change to
    a main Go editor, empties the cache whatever it held; the first two
    keep the editor, the save and the change of editor fire one refresh
    at once, the edit none.  A request that begins in the state the event
    leaves calls the parser and waits for it, and when nothing comes in
    between it adds exactly one parser call.  A request that was already
    waiting for its fetch when the event came is not turned away: when it
    resumes it writes the outline it asked for before the event into the
    emptied cache, and every request after that is answered from this
    outline without a parser call. *)
Theorem invalidation_forces_refetch w ed ev :
  editor (this w) = Some ed ->
  languageId (document ed) = "go"%string ->
  invalidating w ed ev ->
  let ed1 := editor_after ed ev in
  let w1 := deliver ev w in
  (roots (this w1) = [] /\
   editor (this w1) = Some ed1 /\
   effects w1 = effects w ++ match ev with
                             | DidChangeTextDocument _ => []
                             | _ => [Fire]
                             end) /\
  (forall el,
     getChildren_begin el w1
     = (emit (OutlineFromDoc (document ed1)) w1,
        AwaitingOutline (document ed1))) /\
  (forall f el,
     parserCalls (effects (getChildren f el w1).1)
     = S (parserCalls (effects w))) /\
  (forall el outline,
     roots (this w) = [] ->
     nested outline <> [] ->
     let w0 := emit (OutlineFromDoc (document ed)) w in
     let w2 := deliver ev w0 in
     let w3 := (getChildren_resume (Resolved outline) el w2).1 in
     getChildren_begin el w = (w0, AwaitingOutline (document ed)) /\
     roots (this w2) = [] /\
     roots (this w3) = nested outline /\
     editor (this w3) = Some ed1 /\
     (getChildren_resume (Resolved outline) el w2).2
     = answer el (nested outline) /\
     forall f el', getChildren f el' w3 = (w3, answer el' (nested outline))).
Proof.
  intros He Hl Hev. cbv zeta.
  assert (forall v, this v = this w ->
            roots (this (deliver ev v)) = [] /\
            editor (this (deliver ev v)) = Some (editor_after ed ev) /\
            languageId (document (editor_after ed ev)) = "go"%string /\
            effects (deliver ev v)
            = effects v ++ match ev with
                           | DidChangeTextDocument _ => []
                           | _ => [Fire]
                           end) as Hdel.
  { intros [p tms nxt clk effs] Hv. simpl in Hv. subst p.
    destruct Hev as [doc Hls Hu|evt Hls [Hu Hch]|ed' Hv' Hl'].
    - unfold deliver. cbn [this]. rewrite Hls.
      unfold onDocumentSaved, isDocumentForActiveEditor. cbn [this].
      rewrite He, Hu, String.eqb_refl. simpl. rewrite He. auto.
    - unfold deliver. cbn [this]. rewrite Hls.
      unfold onDocumentChanged, isDocumentForActiveEditor. cbn [this].
      rewrite He, Hu, String.eqb_refl. simpl.
      destruct (contentChanges evt) as [|c cs]; [congruence|].
      destruct (documentChangedTimer (this w)); simpl;
        rewrite He, app_nil_r; auto.
    - unfold deliver, onActiveEditorChanged, isMainEditor.
      destruct (viewColumn ed') as [c|]; [|congruence]. simpl. auto. }
  assert (forall v ed2 rs el f,
            editor (this v) = Some ed2 ->
            languageId (document ed2) = "go"%string ->
            roots (this v) = rs -> rs <> [] ->
            getChildren f el v = (v, answer el rs)) as Hserve.
  { intros v ed2 rs el f Hv2 Hl2 Hrs Hne.
    unfold getChildren. rewrite Hv2, Hl2, Hrs. simpl.
    destruct rs as [|r rs']; [congruence|].
    destruct el; simpl; rewrite ?Hrs; reflexivity. }
  destruct (Hdel w eq_refl) as (Hr1 & He1 & Hl1 & Hf1).
  split; [auto|]. split; [|split].
  - intros el. unfold getChildren_begin. rewrite He1, Hl1, Hr1. reflexivity.
  - intros f el.
    rewrite (getChildren_fetches f el _ _ He1 Hl1 Hr1), Hf1, parserCalls_app.
    destruct ev; unfold parserCalls; simpl; lia.
  - intros el outline Hr Hne.
    destruct (Hdel (emit (OutlineFromDoc (document ed)) w) eq_refl)
      as (Hr2 & He2 & Hl2 & _).
    split.
    { unfold getChildren_begin. rewrite He, Hl, Hr. reflexivity. }
    split; [exact Hr2|]. split; [reflexivity|]. split; [exact He2|].
    split; [destruct el; reflexivity|].
    intros f el'. apply (Hserve _ (editor_after ed ev)); auto.
Qed.

Lemma invalidation_forces_refetch_witness :
  (roots (this (deliver (DidSaveTextDocument goDocument) savingWorld)) = [] /\
   parserCalls
     (effects (getChildren (fun _ => Rejected notGinkgoError) None
                 (deliver (DidSaveTextDocument goDocument) savingWorld)).1)
   = S (parserCalls (effects savingWorld))) /\
  (let w0 := emit (OutlineFromDoc goDocument) freshWorld in
   let w2 := deliver (DidChangeTextDocument keystroke) w0 in
   let w3 := (getChildren_resume (Resolved (mkOutline [4; 5]%nat []))
                None w2).1 in
   roots (this w2) = [] /\
   getChildren (fun _ => Rejected notGinkgoError) None w3
   = (w3, Some [4; 5]%nat)).
Proof.
  split.
  - destruct (invalidation_forces_refetch savingWorld goEditor
                (DidSaveTextDocument goDocument) eq_refl eq_refl
                ltac:(apply invalidating_save; reflexivity))
      as ((Hr & _) & _ & Hp & _).
    split; [exact Hr | apply Hp].
  - destruct (invalidation_forces_refetch freshWorld goEditor
                (DidChangeTextDocument keystroke) eq_refl eq_refl
                ltac:(apply invalidating_edit;
                      [reflexivity | split; [reflexivity | discriminate]]))
      as (_ & _ & _ & Hrace).
    destruct (Hrace None (mkOutline [4; 5]%nat []) eq_refl
                ltac:(discriminate))
      as (_ & Hr2 & _ & _ & _ & Hserved).
    split; [exact Hr2 | apply Hserved].
Defined.

(* ================================================================= *)
(** ** Document events under [onSave] *)

Lemma saves_of_editor w w' evs :
  editor (this w') = editor (this w) -> saves_of w' evs = saves_of w evs.
Proof.
  intros He. unfold saves_of. f_equal. apply filter_ext. intros [t ev].
  destruct ev; try reflexivity. simpl.
  unfold isDocumentForActiveEditor. rewrite He. reflexivity.
Qed.

Lemma save_step w t ev :
  updateListener (this w) = Some OnDidSaveTextDocument ->
  timers w = [] ->
  is_document_event (t, ev) ->
  let w' := step w (t, ev) in
  updateListener (this w') = Some OnDidSaveTextDocument /\
  timers w' = [] /\
  editor (this w') = editor (this w) /\
  fires (effects w') = (fires (effects w) + saves_of w [(t, ev)])%nat /\
  (saves_of w [(t, ev)] = O -> this w' = this w).
Proof.
  intros Hl Ht Hev. cbv zeta. unfold step, advance. simpl.
  rewrite Ht. simpl. rewrite app_nil_r.
  destruct ev as [evt|doc| |]; try contradiction; unfold deliver; simpl; rewrite Hl.
  - unfold saves_of. simpl. repeat split; auto; lia.
  - unfold onDocumentSaved, saves_of. simpl.
    change (isDocumentForActiveEditor doc
              (mkWorld (this w) [] (nextTimer w) (Z.max (clock w) t) (effects w)))
      with (isDocumentForActiveEditor doc w).
    destruct (isDocumentForActiveEditor doc w); simpl.
    + repeat split; auto; try discriminate.
      unfold fires. rewrite List.filter_app, length_app. reflexivity.
    + repeat split; auto; lia.
Qed.

(** X9.  Under [onSave] with no timer pending, over any run of document
    events the refreshes fired are exactly the saves of the bound
    editor's document, one each and at once; edits, saves of other
    documents and, with no editor bound, all document events change
    nothing of the provider. *)
Theorem saves_refresh_at_once evs : forall w,
  updateListener (this w) = Some OnDidSaveTextDocument ->
  timers w = [] ->
  Forall is_document_event evs ->
  fires (effects (run evs w)) = (fires (effects w) + saves_of w evs)%nat /\
  timers (run evs w) = [] /\
  (saves_of w evs = O -> this (run evs w) = this w).
Proof.
  induction evs as [|[t ev] evs IH]; intros w Hl Ht Hev.
  - unfold saves_of. simpl. repeat split; auto; lia.
  - apply Forall_cons in Hev as [Hev Hevs].
    destruct (save_step w t ev Hl Ht Hev) as (Hl' & Ht' & He' & Hf' & Hsame).
    change (run ((t, ev) :: evs) w) with (run evs (step w (t, ev))).
    destruct (IH _ Hl' Ht' Hevs) as (IHf & IHt & IHsame).
    rewrite (saves_of_editor w _ evs He') in IHf, IHsame.
    assert (saves_of w ((t, ev) :: evs)
            = (saves_of w [(t, ev)] + saves_of w evs)%nat) as Hsplit.
    { unfold saves_of. simpl.
      destruct (match ev with
                | DidSaveTextDocument doc => isDocumentForActiveEditor doc w
                | _ => false
                end); reflexivity. }
    rewrite Hsplit. split; [rewrite IHf, Hf'; lia|]. split; [exact IHt|].
    intros H0. rewrite IHsame by lia. apply Hsame. lia.
Qed.

Lemma saves_refresh_at_once_witness :
  fires (effects
           (run [(1100, DidSaveTextDocument otherDocument);
                 (1200, DidChangeTextDocument keystroke);
                 (1300, DidSaveTextDocument goDocument);
                 (1400, DidSaveTextDocument goDocument)] savingWorld))
  = (fires (effects savingWorld) + 2)%nat.
Proof.
  apply (saves_refresh_at_once
           [(1100, DidSaveTextDocument otherDocument);
            (1200, DidChangeTextDocument keystroke);
            (1300, DidSaveTextDocument goDocument);
            (1400, DidSaveTextDocument goDocument)] savingWorld
           eq_refl eq_refl).
  repeat (apply List.Forall_cons; [exact I|]). apply List.Forall_nil.
Defined.

(* ================================================================= *)
(** ** One timer at most *)

Lemma tidy_advance t w : tidy w -> tidy (advance t w).
Proof.
  intros [Ht|(id & due & Ht & Hid)]; unfold tidy, advance; simpl; rewrite Ht; simpl.
  - left. reflexivity.
  - destruct (due <=? t); simpl; [left; reflexivity|].
    right. exists id, due. auto.
Qed.

Lemma tidy_same w w' :
  timers w' = timers w ->
  documentChangedTimer (this w') = documentChangedTimer (this w) ->
  tidy w -> tidy w'.
Proof. unfold tidy. intros -> ->. auto. Qed.

Lemma tidy_onDocumentChanged evt w : tidy w -> tidy (onDocumentChanged evt w).
Proof.
  intros Hw. unfold onDocumentChanged.
  destruct (negb (isDocumentForActiveEditor (ev_document evt) w)); [exact Hw|].
  destruct (contentChanges evt) as [|c cs]; [exact Hw|].
  destruct Hw as [Ht|(id & due & Ht & Hid)]; simpl.
  - destruct (documentChangedTimer (this w)); simpl; rewrite Ht; simpl;
      right; eexists _, _; split; reflexivity.
  - rewrite Hid. simpl. rewrite Ht. simpl. rewrite Nat.eqb_refl. simpl.
    right. eexists _, _. split; reflexivity.
Qed.

Lemma tidy_deliver ev w : tidy w -> tidy (deliver ev w).
Proof.
  intros Hw. destruct ev as [evt|doc|e|u]; unfold deliver.
  - destruct (updateListener (this w)) as [[|]|]; auto using tidy_onDocumentChanged.
  - destruct (updateListener (this w)) as [[|]|]; auto.
    unfold onDocumentSaved. destruct (negb _); [exact Hw|].
    eapply tidy_same; [| |exact Hw]; reflexivity.
  - unfold onActiveEditorChanged.
    destruct e as [ed|]; [destruct (negb (isMainEditor ed)); [exact Hw|]|];
      (eapply tidy_same; [| |exact Hw]; reflexivity).
  - unfold setUpdateOn.
    destruct (updateListener (this w)), u;
      (eapply tidy_same; [| |exact Hw]; reflexivity).
Qed.

Lemma getChildren_keeps_timers f el w :
  timers (getChildren f el w).1 = timers w /\
  documentChangedTimer (this (getChildren f el w).1)
  = documentChangedTimer (this w).
Proof.
  unfold getChildren. destruct (editor (this w)) as [ed|]; [|auto].
  destruct (negb _); [auto|].
  destruct (roots (this w)); [destruct (f (document ed))|];
    destruct el; simpl; auto.
Qed.

Lemma clickTreeItem_keeps_timers n t w :
  timers (clickTreeItem n t w) = timers w /\
  documentChangedTimer (this (clickTreeItem n t w))
  = documentChangedTimer (this w).
Proof.
  unfold clickTreeItem. destruct (editor (this w)) as [ed|]; [|auto].
  destruct (negb _); simpl; auto.
Qed.

Lemma tidy_act ta w : tidy w -> tidy (act w ta).
Proof.
  intros Hw. apply (tidy_advance ta.1) in Hw. unfold act.
  destruct ta.2 as [ev|f el|n|d|d].
  - apply tidy_deliver, Hw.
  - eapply tidy_same; [apply getChildren_keeps_timers..|exact Hw].
  - eapply tidy_same; [apply clickTreeItem_keeps_timers..|exact Hw].
  - eapply tidy_same; [| |exact Hw]; reflexivity.
  - eapply tidy_same; [| |exact Hw]; reflexivity.
Qed.

(** X10.  Whatever happens to a provider after its construction, events,
    mode switches, requests, clicks, changed settings, in any order and
    at any times, at most one timer is pending, and when one is the
    provider holds its handle. *)
Theorem one_timer_at_most acts :
  forall activeTextEditor u delay threshold now,
    tidy (session acts (new activeTextEditor u delay threshold now)) /\
    (length (timers (session acts (new activeTextEditor u delay threshold now)))
     <= 1)%nat.
Proof.
  assert (forall w, tidy w -> tidy (session acts w)) as Hinv.
  { induction acts as [|ta acts IH]; intros w Hw; [exact Hw|].
    apply IH, tidy_act, Hw. }
  intros e u d T now.
  assert (tidy (new e u d T now)) as H0 by (left; destruct u; reflexivity).
  apply Hinv in H0. split; [exact H0|].
  destruct H0 as [->|(id & due & -> & _)]; simpl; lia.
Qed.

(* ================================================================= *)
(** ** Settings *)

(** X11.  The delay given to [setUpdateOnTypeDelay] governs the next
    qualifying edit: the refresh is due [d] after the edit when [d] is
    between one millisecond and [TIMEOUT_MAX], and one millisecond after
    it otherwise (a negative delay is stored as zero, and the timer runs a
    delay below one millisecond or above [TIMEOUT_MAX] as one
    millisecond).  The refresh fires once that time is reached, so never
    at the edit's own time. *)
Theorem delay_setting_governs_next_edit w ed d t evt :
  updateListener (this w) = Some OnDidChangeTextDocument ->
  editor (this w) = Some ed ->
  clock w <= t ->
  Forall (fun tm => documentChangedTimer (this w) = Some tm.1 /\ t < tm.2)
         (timers w) ->
  qualifying ed evt ->
  let w1 := step (setUpdateOnTypeDelay d w) (t, DidChangeTextDocument evt) in
  let due := t + (if (1 <=? d) && (d <=? TIMEOUT_MAX) then d else 1) in
  updateOnTypeDelay (this w1) = Z.max d 0 /\
  (exists id, timers w1 = [(id, due)] /\
              documentChangedTimer (this w1) = Some id) /\
  roots (this w1) = [] /\
  effects w1 = effects w /\
  t < due /\
  forall T, effects (advance T w1)
            = effects w ++ (if due <=? T then [Fire] else []).
Proof.
  intros Hl He Hc Ht Hq. cbv zeta.
  assert (timer_delay (Z.max d 0)
          = if (1 <=? d) && (d <=? TIMEOUT_MAX) then d else 1) as Hdelay.
  { unfold timer_delay.
    destruct (Z.leb_spec 1 d), (Z.leb_spec d TIMEOUT_MAX),
             (Z.leb_spec 1 (Z.max d 0)), (Z.leb_spec (Z.max d 0) TIMEOUT_MAX);
      simpl; unfold TIMEOUT_MAX in *; lia. }
  pose proof (edit_restarts ed _ (setUpdateOnTypeDelay d w) t evt
                Hl He Hdelay Hc Ht Hq) as Hdb.
  split; [|split; [|split; [|split; [|split]]]].
  - clear Hdb. unfold step, deliver. cbn [fst snd].
    change (updateListener (this (advance t (setUpdateOnTypeDelay d w))))
      with (updateListener (this w)).
    rewrite Hl. unfold onDocumentChanged.
    destruct (negb _); [reflexivity|].
    destruct (contentChanges evt); [reflexivity|].
    cbn. destruct (documentChangedTimer (this w)); reflexivity.
  - exact (db_timers _ _ _ _ _ Hdb).
  - exact (db_roots _ _ _ _ _ Hdb).
  - exact (db_effects _ _ _ _ _ Hdb).
  - destruct (Z.leb_spec 1 d), (Z.leb_spec d TIMEOUT_MAX); simpl; lia.
  - intros T. apply (debouncing_fires _ _ _ _ _ T Hdb).
Qed.

Lemma delay_setting_governs_next_edit_witness :
  (forall T, effects (advance T
               (step (setUpdateOnTypeDelay (-5) freshWorld)
                     (1000, DidChangeTextDocument keystroke)))
             = effects freshWorld ++ (if 1001 <=? T then [Fire] else [])) /\
  (forall T, effects (advance T
               (step (setUpdateOnTypeDelay 250 freshWorld)
                     (1000, DidChangeTextDocument keystroke)))
             = effects freshWorld ++ (if 1250 <=? T then [Fire] else [])).
Proof.
  split.
  - apply (delay_setting_governs_next_edit freshWorld goEditor (-5) 1000
             keystroke eq_refl eq_refl (Z.le_refl 1000) ltac:(constructor)
             ltac:(split; [reflexivity | discriminate])).
  - apply (delay_setting_governs_next_edit freshWorld goEditor 250 1000
             keystroke eq_refl eq_refl (Z.le_refl 1000) ltac:(constructor)
             ltac:(split; [reflexivity | discriminate])).
Defined.

(** X12.  A threshold that is not positive, as [setDoubleClickThreshold]
    makes of any such setting, switches navigation off: as long as the
    clock does not run backwards every activation highlights. *)
Theorem nonpositive_threshold_never_navigates :
  (forall w d, d <= 0 ->
     doubleClickThreshold (this (setDoubleClickThreshold d w)) = 0) /\
  (forall w ed n t,
     doubleClickThreshold (this w) <= 0 ->
     editor (this w) = Some ed ->
     (forall t0, lastClickedTime (this w) = Some t0 -> t0 <= t) ->
     effects (clickTreeItem n t w) = effects w ++ highlight_effects ed n).
Proof.
  split.
  - intros w d Hd. simpl. lia.
  - intros w ed n t HT He Hmono. rewrite (clickTreeItem_unfold w ed n t He).
    assert (recently w n t = false) as ->; [|reflexivity].
    unfold recently. destruct (lastClickedTime (this w)) as [t0|]; [|reflexivity].
    destruct (lastClickedNode (this w)) as [n0|]; [|reflexivity].
    specialize (Hmono t0 eq_refl). unfold wasRecentlyClicked.
    assert ((t - t0 <? doubleClickThreshold (this w)) = false) as ->
      by (apply Z.ltb_ge; lia).
    rewrite andb_false_r, andb_false_r. reflexivity.
Qed.

Lemma nonpositive_threshold_never_navigates_witness :
  effects (clickTreeItem itNode 1001
             (clickTreeItem itNode 1000 (setDoubleClickThreshold (-1) freshWorld)))
  = effects (clickTreeItem itNode 1000 (setDoubleClickThreshold (-1) freshWorld))
    ++ highlight_effects goEditor itNode.
Proof.
  apply (proj2 nonpositive_threshold_never_navigates
           (clickTreeItem itNode 1000 (setDoubleClickThreshold (-1) freshWorld))
           goEditor itNode 1001).
  - simpl. lia.
  - reflexivity.
  - intros t0 H. injection H as <-. lia.
Defined.

(* ================================================================= *)
(** ** The recorded click *)

Lemma deliver_keeps_click ev w :
  lastClickedNode (this (deliver ev w)) = lastClickedNode (this w) /\
  lastClickedTime (this (deliver ev w)) = lastClickedTime (this w).
Proof.
  destruct ev as [evt|doc|e|u]; unfold deliver.
  - destruct (updateListener (this w)) as [[|]|]; auto.
    unfold onDocumentChanged. destruct (negb _); auto.
    destruct (contentChanges evt); auto. simpl.
    destruct (documentChangedTimer (this w)); auto.
  - destruct (updateListener (this w)) as [[|]|]; auto.
    unfold onDocumentSaved. destruct (negb _); auto.
  - unfold onActiveEditorChanged.
    destruct e as [ed|]; [destruct (negb (isMainEditor ed))|]; auto.
  - unfold setUpdateOn. destruct (updateListener (this w)), u; auto.
Qed.

Lemma getChildren_keeps_click f el w :
  lastClickedNode (this (getChildren f el w).1) = lastClickedNode (this w) /\
  lastClickedTime (this (getChildren f el w).1) = lastClickedTime (this w).
Proof.
  unfold getChildren. destruct (editor (this w)) as [ed|]; auto.
  destruct (negb _); auto.
  destruct (roots (this w)); [destruct (f (document ed))|];
    destruct el; simpl; auto.
Qed.

Lemma act_keeps_click ta w :
  ~ is_click ta ->
  lastClickedNode (this (act w ta)) = lastClickedNode (this w) /\
  lastClickedTime (this (act w ta)) = lastClickedTime (this w).
Proof.
  intros Hc. unfold act, is_click in *. destruct ta as [t a]. simpl in *.
  change (this w) with (this (advance t w)).
  destruct a as [ev|f el|n|d|d]; try (exfalso; apply Hc; exact I).
  - apply deliver_keeps_click.
  - apply getChildren_keeps_click.
  - auto.
  - auto.
Qed.

(** X13.  Nothing but an activation touches the recorded click: after
    any run of events, mode switches, requests and changed settings the
    node and time of the last activation are still recorded, and the next
    activation is classified against them, in whatever editor is then
    bound and with the threshold then in force. *)
Theorem click_record_survives w ed acts n0 t0 :
  editor (this w) = Some ed ->
  t0 <> 0 ->
  Forall (fun ta => ~ is_click ta) acts ->
  let w2 := session acts (clickTreeItem n0 t0 w) in
  lastClickedNode (this w2) = Some n0 /\
  lastClickedTime (this w2) = Some t0 /\
  forall ed2 n1 t1,
    editor (this w2) = Some ed2 ->
    (effects (clickTreeItem n1 t1 w2) = effects w2 ++ navigate_effects ed2 n1
     <-> (start n0 = start n1 /\ end_ n0 = end_ n1) /\
         t1 - t0 < doubleClickThreshold (this w2)).
Proof.
  intros He Hz Hacts. cbv zeta.
  destruct (click_records w ed n0 t0 He) as (Hn & Ht & _ & _).
  assert (forall w1,
            lastClickedNode (this (session acts w1)) = lastClickedNode (this w1) /\
            lastClickedTime (this (session acts w1)) = lastClickedTime (this w1))
    as Hkeep.
  { clear -Hacts. induction acts as [|ta acts IH]; intros w1; [auto|].
    apply Forall_cons in Hacts as [Hta Hacts].
    change (session (ta :: acts) w1) with (session acts (act w1 ta)).
    destruct (IH Hacts (act w1 ta)) as [-> ->]. apply act_keeps_click, Hta. }
  destruct (Hkeep (clickTreeItem n0 t0 w)) as [Hn2 Ht2].
  rewrite Hn in Hn2. rewrite Ht in Ht2.
  split; [exact Hn2|]. split; [exact Ht2|].
  intros ed2 n1 t1 He2.
  apply (recorded_click _ ed2 n0 t0 n1 t1 He2 Hn2 Ht2 Hz).
Qed.

Lemma click_record_survives_witness :
  lastClickedTime
    (this (session [(1100, HostEvent (DidChangeActiveTextEditor (Some secondEditor)));
                    (1150, Request (fun _ => Resolved (mkOutline [] [])) None)]
                   (clickTreeItem itNode 1000 freshWorld)))
  = Some 1000.
Proof.
  apply (click_record_survives freshWorld goEditor
           [(1100, HostEvent (DidChangeActiveTextEditor (Some secondEditor)));
            (1150, Request (fun _ => Resolved (mkOutline [] [])) None)]
           itNode 1000 eq_refl ltac:(discriminate)).
  repeat (apply List.Forall_cons; [intros H; exact H|]). apply List.Forall_nil.
Defined.

(* ================================================================= *)
(** ** The quick pick *)






(** X15.  [fromTextEditor] never looks at the provider's cache and never
    changes the provider: for a Go document it calls the parser every
    time, and when that resolves it shows the flat list, in its order;
    for any other document it shows an empty pick list without calling
    the parser. *)
Theorem quick_pick_bypasses_cache ed f w :
  this (fromTextEditor ed f w).1 = this w /\
  timers (fromTextEditor ed f w).1 = timers w /\
  (languageId (document ed) = "go"%string ->
   parserCalls (effects (fromTextEditor ed f w).1)
   = S (parserCalls (effects w)) /\
   forall out, f (document ed) = Resolved out ->
     fromTextEditor ed f w
     = (emit (QuickPickShow (flat out)) (emit (OutlineFromDoc (document ed)) w),
        Resolved tt)) /\
  (languageId (document ed) <> "go"%string ->
   parserCalls (effects (fromTextEditor ed f w).1) = parserCalls (effects w) /\
   (fromTextEditor ed f w).2 = Resolved tt /\
   exists es, effects (fromTextEditor ed f w).1 = es ++ [ShowQuickPick []]).
Proof.
  unfold fromTextEditor.
  destruct (String.eqb (languageId (document ed)) "go") eqn:Hgo; simpl.
  - split; [destruct (f (document ed)); reflexivity|].
    split; [destruct (f (document ed)); reflexivity|]. split.
    + intros _. split.
      * destruct (f (document ed)); simpl; rewrite ?parserCalls_app;
          unfold parserCalls; simpl; lia.
      * intros out ->. reflexivity.
    + intros Hl. apply String.eqb_neq in Hl. congruence.
  - split; [reflexivity|]. split; [reflexivity|]. split.
    + intros Hl. apply String.eqb_eq in Hl. congruence.
    + intros _. split.
      * rewrite !parserCalls_app. unfold parserCalls. simpl. lia.
      * split; [reflexivity|]. eexists. reflexivity.
Qed.

Lemma quick_pick_bypasses_cache_witness :
  parserCalls
    (effects (fromTextEditor goEditor
                (fun _ => Resolved (mkOutline [] [])) savingWorld).1)
  = S (parserCalls (effects savingWorld)).
Proof.
  apply (proj1 (proj2 (proj2 (quick_pick_bypasses_cache goEditor
                  (fun _ => Resolved (mkOutline [] [])) savingWorld)))
               eq_refl).
Defined.
